(** * cipherio: block-aligned stream adapters

    A shallow embedding of the Go package [cipherio] (padding.go, reader.go)
    and of its block writer, followed by the properties of its
    specification.

    Conventions.
    - A Go [[]byte] is a [list byte]; a call that writes into a slice returns
      the new contents of that slice.
    - A Go [int] that holds a length or a count is a [nat]; none of them is
      ever near the width of the machine word.
    - A Go [error] is an [option error], [None] being [nil]; errors are
      compared by identity, as [==] does in the source.
    - A Go [panic] is [None] in the result of the function that raises it.
    - A slice expression is written with [firstn] and [skipn].  In the
      states that satisfy [reader_inv], the only ones a reader is ever in,
      every index of [Read] is within bounds and every subtraction is exact.
    - The interfaces the package consumes ([io.Reader], [cipher.BlockMode],
      [io.Writer]) are type classes over the state of the implementation. *)

From Stdlib Require Import List Arith Lia Bool.
From Stdlib.Strings Require Import Byte.
Import ListNotations.

Set Implicit Arguments.

(** ** Errors *)

(** [io.EOF], [io.ErrUnexpectedEOF], [io.ErrShortWrite], and any other error
    value, told apart by a tag (its identity). *)
Inductive error : Type :=
| EOF
| ErrUnexpectedEOF
| ErrShortWrite
| ErrOther (tag : nat).

Definition error_eqb (a b : error) : bool :=
  match a, b with
  | EOF, EOF => true
  | ErrUnexpectedEOF, ErrUnexpectedEOF => true
  | ErrShortWrite, ErrShortWrite => true
  | ErrOther x, ErrOther y => Nat.eqb x y
  | _, _ => false
  end.

(** [err == io.EOF] *)
Definition is_EOF (err : option error) : bool :=
  match err with
  | Some e => error_eqb e EOF
  | None => false
  end.

(** ** Slices *)

(** The builtin [copy(dst, src)]: overwrites the first
    [min (len dst) (len src)] bytes of [dst] and returns that number. *)
Definition copy (dst src : list byte) : list byte * nat :=
  let n := Nat.min (length dst) (length src) in
  (firstn n src ++ skipn n dst, n).

(** The conversion [byte(n)] of an [int]: the low eight bits. *)
Definition byte_of_int (n : nat) : byte :=
  match Byte.of_nat (n mod 256) with
  | Some b => b
  | None => x00
  end.

(** ** padding.go *)

(** [Padding] is an interface with the single method [Fill(dst []byte)];
    [PaddingFunc] adapts a function to it.  A fill rewrites [dst] in place or
    panics. *)
Definition PaddingFunc : Type := list byte -> option (list byte).

Record Padding : Type := mkPadding { Fill : list byte -> option (list byte) }.

Definition PaddingFunc_Padding (p : PaddingFunc) : Padding :=
  {| Fill := fun dst => p dst |}.

(** [for i := range dst { dst[i] = val }] *)
Definition fill (dst : list byte) (val : byte) : list byte :=
  map (fun _ => val) dst.

Definition ZeroPadding : Padding :=
  PaddingFunc_Padding (fun dst => Some (fill dst x00)).

(** [dst[0] = 0x80] panics on an empty slice. *)
Definition BitPadding : Padding :=
  PaddingFunc_Padding (fun dst =>
    match dst with
    | [] => None
    | _ :: tl => Some (x80 :: fill tl x00)
    end).

Definition PKCS7Padding : Padding :=
  PaddingFunc_Padding (fun dst =>
    let n := length dst in
    if 255 <? n then None
    else Some (fill dst (byte_of_int n))).

(** ** The interfaces the package consumes *)

(** [io.Reader].  [io_Read s k] is a call [Read(p)] with [len(p) = k] on a
    source in state [s]: the bytes it stored at the front of [p] (their number
    is the [n] it returns), the error it returns, and its next state.  The
    interface promises [0 <= n <= len(p)]. *)
Class IoReader (Src : Type) : Type := {
  io_Read : Src -> nat -> list byte * option error * Src;
  io_Read_le : forall s k, length (fst (fst (io_Read s k))) <= k
}.

(** [cipher.BlockMode].  [CryptBlocks(dst, src)] is only ever called with
    [dst] and [src] the same slice; it returns the new contents of that slice,
    as long as what it was given, and the next state of the mode (a chained
    mode remembers the last block). *)
Class BlockMode (BM : Type) : Type := {
  BlockSize : BM -> nat;
  CryptBlocks : BM -> list byte -> list byte * BM;
  CryptBlocks_length : forall m l, length (fst (CryptBlocks m l)) = length l
}.

(** [io.Writer].  [io_Write k p] is a call [Write(p)] on a sink in state
    [k]: the number of bytes it reports written, its error, its next state. *)
Class IoWriter (K : Type) : Type := {
  io_Write : K -> list byte -> nat * option error * K
}.

(** ** reader.go *)

(** What a call to [Read] does to its collaborators, in order: a read of the
    wrapped source with a buffer of [k] bytes, a call to [CryptBlocks] on [n]
    bytes. *)
Inductive Event : Type :=
| EvSrcRead (k : nat)
| EvCrypt (n : nat).

Definition is_SrcRead (e : Event) : bool :=
  match e with EvSrcRead _ => true | EvCrypt _ => false end.

Definition is_Crypt (e : Event) : bool :=
  match e with EvCrypt _ => true | EvSrcRead _ => false end.

(** The calls one [Read] makes: none, or one read of the source, followed
    or not by one call to [CryptBlocks]; the source is never handed an empty
    buffer. *)
Definition one_read_trace (tr : list Event) (positive : Prop) : Prop :=
  tr = [] \/
  exists k, (positive -> 0 < k) /\
            (tr = [EvSrcRead k] \/ exists n, tr = [EvSrcRead k; EvCrypt n]).

Section Reader.
Context {Src BM : Type} `{IoReader Src} `{BlockMode BM}.

(** [buf] is the used part [r.buf[:len(r.buf)]] of a backing array of
    [blockSize] bytes. *)
Record blockReader : Type := mkReader {
  src : Src;
  blockMode : BM;
  blockSize : nat;
  buf : list byte;
  crypted : nat;
  eof : bool
}.

Definition NewBlockReader (s : Src) (m : BM) : blockReader :=
  {| src := s; blockMode := m; blockSize := BlockSize m;
     buf := []; crypted := 0; eof := false |}.

Definition with_src (r : blockReader) (s : Src) : blockReader :=
  mkReader s (blockMode r) (blockSize r) (buf r) (crypted r) (eof r).
Definition with_blockMode (r : blockReader) (m : BM) : blockReader :=
  mkReader (src r) m (blockSize r) (buf r) (crypted r) (eof r).
Definition with_buf (r : blockReader) (b : list byte) : blockReader :=
  mkReader (src r) (blockMode r) (blockSize r) b (crypted r) (eof r).
Definition with_crypted (r : blockReader) (c : nat) : blockReader :=
  mkReader (src r) (blockMode r) (blockSize r) (buf r) c (eof r).
Definition with_eof (r : blockReader) (e : bool) : blockReader :=
  mkReader (src r) (blockMode r) (blockSize r) (buf r) (crypted r) e.

(** What [Read(p)] returns and leaves behind: the count, the error, the
    caller's whole slice after the call, the reader, and the calls made. *)
Record ReadResult : Type := mkRes {
  res_n : nat;
  res_err : option error;
  res_p : list byte;
  res_r : blockReader;
  res_trace : list Event
}.

(** Lines 67-85, [len(p) < r.blockSize].  [done] is the part of the caller's
    slice in front of the re-sliced [p]. *)
Definition Read_small (r : blockReader) (done p : list byte) (count : nat)
  : ReadResult :=
  let k := blockSize r - length (buf r) in
  let '(data, err, s1) := io_Read (src r) k in
  let r1 := with_buf (with_src r s1) (buf r ++ data) in
  let '(r2, p2, count2, tr) :=
    if length (buf r1) =? blockSize r1 then
      let (out, m1) := CryptBlocks (blockMode r1) (buf r1) in
      let (p', copied) := copy p out in
      (with_crypted (with_buf (with_blockMode r1 m1) out)
                    (blockSize r1 - copied),
       p', count + copied, [EvSrcRead k; EvCrypt (length (buf r1))])
    else (r1, p, count, [EvSrcRead k]) in
  let (r3, err3) :=
    if is_EOF err then
      if 0 <? crypted r2 then (with_eof r2 true, None)
      else if 0 <? length (buf r2) then (r2, Some ErrUnexpectedEOF)
      else (r2, err)
    else (r2, err) in
  mkRes count2 err3 (done ++ p2) r3 tr.

(** Lines 87-106, [len(p) >= r.blockSize].  The source writes into
    [p[len(r.buf):]].  The last two statements before the error test,
    [r.buf = r.buf[:buffered]] and the [copy] into its tail, are taken
    together: the copy covers every byte the re-slice uncovers. *)
Definition Read_large (r : blockReader) (done p : list byte) (count : nat)
  : ReadResult :=
  let k := length p - length (buf r) in
  let '(data, err, s1) := io_Read (src r) k in
  let p1 := firstn (length (buf r)) p
            ++ fst (copy (skipn (length (buf r)) p) data) in
  let r1 := with_src r s1 in
  let n := length data in
  let available := length (buf r1) + n in
  let buffered := available mod blockSize r1 in
  let crypted := available - buffered in
  let '(r2, p2, count2, tr) :=
    if 0 <? crypted then
      let p' := fst (copy p1 (buf r1)) in
      let (out, m1) := CryptBlocks (blockMode r1) (firstn crypted p') in
      (with_buf (with_blockMode r1 m1) [],
       fst (copy p' out), count + crypted, [EvSrcRead k; EvCrypt crypted])
    else (r1, p1, count, [EvSrcRead k]) in
  let newlyBuffered := buffered - length (buf r2) in
  let r3 :=
    with_buf r2 (firstn (buffered - newlyBuffered) (buf r2)
                 ++ firstn newlyBuffered
                      (skipn (available - newlyBuffered) p2)) in
  let err3 :=
    if is_EOF err && (0 <? buffered) then Some ErrUnexpectedEOF else err in
  mkRes count2 err3 (done ++ p2) r3 tr.

(** Lines 60-66 and the choice between the two paths. *)
Definition Read_fresh (r : blockReader) (done p : list byte) (count : nat)
  : ReadResult :=
  if eof r then mkRes count (Some EOF) (done ++ p) r []
  else if length p =? 0 then mkRes count None (done ++ p) r []
  else if length p <? blockSize r then Read_small r done p count
  else Read_large r done p count.

(** [func (r *blockReader) Read(p []byte) (int, error)] *)
Definition Read (r : blockReader) (p : list byte) : ReadResult :=
  let count := 0 in
  if 0 <? crypted r then
    let (p1, copied) := copy p (skipn (blockSize r - crypted r) (buf r)) in
    let r1 := with_crypted r (crypted r - copied) in
    if 0 <? crypted r1 then mkRes (count + copied) None p1 r1 []
    else Read_fresh (with_buf r1 []) (firstn copied p1) (skipn copied p1)
                    (count + copied)
  else Read_fresh r [] p count.

(** The state a reader is in between two calls: either not-yet-transformed
    bytes, fewer than a block, or what is left to hand out of one
    transformed block. *)
Definition reader_inv (r : blockReader) : Prop :=
  length (buf r) <= blockSize r /\
  ((crypted r = 0 /\ length (buf r) < blockSize r) \/
   (0 < crypted r <= blockSize r /\ length (buf r) = blockSize r)).

(** The source and the mode after a call are the ones before it, moved by
    the calls of the trace and by nothing else. *)
Definition moved_by (tr : list Event) (r r' : blockReader) : Prop :=
  match tr with
  | [] => src r' = src r /\ blockMode r' = blockMode r
  | [EvSrcRead k] =>
      src r' = snd (io_Read (src r) k) /\ blockMode r' = blockMode r
  | [EvSrcRead k; EvCrypt n] =>
      src r' = snd (io_Read (src r) k) /\
      exists l, blockMode r' = snd (CryptBlocks (blockMode r) l)
  | _ => False
  end.

(** A caller's successive calls: the slices it passes, the results it
    gets. *)
Fixpoint Reads (r : blockReader) (ps : list (list byte)) : list ReadResult :=
  match ps with
  | [] => []
  | p :: ps' => let res := Read r p in res :: Reads (res_r res) ps'
  end.

Definition reader_after (r : blockReader) (ps : list (list byte))
  : blockReader :=
  fold_left (fun r p => res_r (Read r p)) ps r.

(** What the reader test looks at in a step: the length asked of the mock
    (in the trace), the count and the error returned. *)
Definition observe (res : ReadResult) : nat * option error * list Event :=
  (res_n res, res_err res, res_trace res).

(** The bytes a sequence of calls delivered, in order. *)
Definition delivered (rs : list ReadResult) : list byte :=
  concat (map (fun res => firstn (res_n res) (res_p res)) rs).

End Reader.

Arguments blockReader : clear implicits.
Arguments ReadResult : clear implicits.

(** *** The stream through a reader *)

Section ReaderStream.
Context {Src BM : Type} `{IoReader Src} `{BlockMode BM}.

(** The transformed bytes a reader still has to hand out,
    [r.buf[r.blockSize-r.crypted:]]. *)
Definition pending (r : blockReader Src BM) : list byte :=
  if 0 <? crypted r then skipn (blockSize r - crypted r) (buf r) else [].

(** The bytes of an incomplete block it holds, not yet transformed. *)
Definition raw (r : blockReader Src BM) : list byte :=
  if 0 <? crypted r then [] else buf r.

(** The bytes the source gave during the call that started in state [r]
    and ended with [res]: the answer to the request found in the trace. *)
Definition src_data (r : blockReader Src BM) (res : ReadResult Src BM)
  : list byte :=
  match res_trace res with
  | EvSrcRead k :: _ => fst (fst (io_Read (src r) k))
  | _ => []
  end.

(** The bytes the source gave along a caller's successive calls. *)
Fixpoint consumed (r : blockReader Src BM) (ps : list (list byte))
  : list byte :=
  match ps with
  | [] => []
  | p :: ps' =>
      let res := Read r p in src_data r res ++ consumed (res_r res) ps'
  end.

(** The bytes the caller received from one call, [p[:n]]. *)
Definition received_bytes (res : ReadResult Src BM) : list byte :=
  firstn (res_n res) (res_p res).

(** The flag [eof] is set with a transformed block in the buffer (lines
    76-79), and the buffer is emptied when the last byte of that block has
    been handed out (line 57). *)
Definition eof_inv (r : blockReader Src BM) : Prop :=
  eof r = true -> crypted r = 0 -> buf r = [].

End ReaderStream.

(** [n] rounded up to a whole number of blocks of [bs] bytes. *)
Definition round_up (bs n : nat) : nat := ((n + bs - 1) / bs) * bs.

(** A mode that works block after block, as the modes of [crypto/cipher] do:
    to transform nothing changes nothing, and to transform whole blocks and
    then what follows is to transform the whole at once. *)
Definition chains {BM : Type} `{BlockMode BM} (bs : nat) : Prop :=
  (forall m : BM, CryptBlocks m [] = ([], m)) /\
  (forall (m : BM) (a b : list byte),
     length a mod bs = 0 ->
     CryptBlocks m (a ++ b)
     = (fst (CryptBlocks m a) ++ fst (CryptBlocks (snd (CryptBlocks m a)) b),
        snd (CryptBlocks (snd (CryptBlocks m a)) b))).

(** ** The block writer *)

(** A padding able to complete a block of [bs] bytes: handed a tail of 1 to
    [bs] bytes, [Fill] returns, and the tail keeps its length, as a Go slice
    written in place does (section 8 of the spec: for a fill length [n] with
    [1 <= n <= blockSize], [fill] writes exactly [n] bytes). *)
Definition fills_block (padding : Padding) (bs : nat) : Prop :=
  forall dst : list byte,
    1 <= length dst <= bs ->
    exists out, Fill padding dst = Some out /\ length out = length dst.

(** What a call to [Write] or [Close] does to its collaborators, in order: a
    fill of [n] bytes by the padding, a call to [CryptBlocks] on [n] bytes, a
    push of [n] bytes to the sink. *)
Inductive WEvent : Type :=
| EvFill (n : nat)
| EvTransform (n : nat)
| EvPush (n : nat).

Definition is_Push (e : WEvent) : bool :=
  match e with EvPush _ => true | _ => false end.

(** Modelled from the spec: the staging capacity of the writer, in blocks
    (section 3: a fixed ceiling on the order of 1024 blocks; the writer test
    sees a push of 1024 blocks followed by one of 2).  The writer's source
    file is not among the sources. *)
Definition stagingBlocks : nat := 1024.

(** Cuts [l] into pieces of [cap] bytes, the last one possibly shorter. *)
Fixpoint chunks_fuel (fuel cap : nat) (l : list byte) : list (list byte) :=
  match fuel with
  | 0 => []
  | S fuel' =>
      match l with
      | [] => []
      | _ :: _ => firstn cap l :: chunks_fuel fuel' cap (skipn cap l)
      end
  end.

Definition chunks (cap : nat) (l : list byte) : list (list byte) :=
  chunks_fuel (length l) cap l.

Section Writer.
Context {K BM : Type} `{IoWriter K} `{BlockMode BM}.

(** Modelled from the spec: the writer state of section 3 (sink handle,
    transform handle, optional padding, the buffered not-yet-transformed
    bytes, the closed flag, the sticky fault slot).  The writer's source file
    is not among the sources; the field names follow the reader's. *)
Record blockWriter : Type := mkWriter {
  dst : K;
  w_blockMode : BM;
  w_padding : option Padding;
  w_blockSize : nat;
  w_buffered : list byte;
  w_closed : bool;
  w_err : option error
}.

(** Modelled from the spec: [newWriterWithPadding] and [newWriter] of
    section 6. *)
Definition NewBlockWriterWithPadding (k : K) (m : BM) (padding : option Padding)
  : blockWriter :=
  {| dst := k; w_blockMode := m; w_padding := padding;
     w_blockSize := BlockSize m; w_buffered := []; w_closed := false;
     w_err := None |}.

Definition NewBlockWriter (k : K) (m : BM) : blockWriter :=
  NewBlockWriterWithPadding k m None.

(** The caller's source after the call is part of what [Write] returns. *)
Record WriteResult : Type := mkWRes {
  wres_n : nat;
  wres_err : option error;
  wres_src : list byte;
  wres_w : blockWriter;
  wres_trace : list WEvent
}.

Record CloseResult : Type := mkCRes {
  cres_err : option error;
  cres_w : blockWriter;
  cres_trace : list WEvent
}.

(** Modelled from the spec: one push of a staged batch (section 6: a short
    write without an error status is treated as an error). *)
Definition push_status (n : nat) (e : option error) (len : nat)
  : option error :=
  match e with
  | Some _ => e
  | None => if n <? len then Some ErrShortWrite else None
  end.

(** Modelled from the spec: section 4.3, [write]: every batch of whole blocks
    is copied to the staging region, transformed there and pushed, until a
    push fails.  Returns the number of bytes the sink took, the first error,
    the mode and the sink after the pushes, and the calls made. *)
Fixpoint push_batches (m : BM) (k : K) (batches : list (list byte))
  : nat * option error * BM * K * list WEvent :=
  match batches with
  | [] => (0, None, m, k, [])
  | b :: rest =>
      let (out, m1) := CryptBlocks m b in
      let '(n, e, k1) := io_Write k out in
      match push_status n e (length out) with
      | Some e1 =>
          (n, Some e1, m1, k1, [EvTransform (length b); EvPush (length out)])
      | None =>
          let '(n', e', m', k', tr) := push_batches m1 k1 rest in
          (length out + n', e', m', k',
           EvTransform (length b) :: EvPush (length out) :: tr)
      end
  end.

(** Modelled from the spec: section 4.3, [write(source)], with the
    sticky-fault rule checked first.  On a failed push the count is the
    number of source bytes among those the sink took (the writer test:
    12 of 16 taken with 3 buffered gives 9, 2 of 16 with 3 buffered gives
    0). *)
Definition Write (w : blockWriter) (source : list byte) : WriteResult :=
  match w_err w with
  | Some e => mkWRes 0 (Some e) source w []
  | None =>
      let all := w_buffered w ++ source in
      let ready := (length all / w_blockSize w) * w_blockSize w in
      let '(sent, e, m1, k1, tr) :=
        push_batches (w_blockMode w) (dst w)
          (chunks (stagingBlocks * w_blockSize w) (firstn ready all)) in
      match e with
      | Some _ =>
          mkWRes (sent - length (w_buffered w)) e source
            (mkWriter k1 m1 (w_padding w) (w_blockSize w) [] (w_closed w) e)
            tr
      | None =>
          mkWRes (length source) None source
            (mkWriter k1 m1 (w_padding w) (w_blockSize w) (skipn ready all)
               (w_closed w) None)
            tr
      end
  end.

(** Modelled from the spec: section 4.3, [finalize()] (the tests' [Close]).
    The sticky fault is checked first; then the cases of the section, which
    the buffered bytes and the padding decide: nothing buffered, bytes
    buffered and no padding, bytes buffered and a padding.  A writer that
    [Close] has finalized holds no buffered byte, so a repeated [Close] takes
    the first case; the closed flag of section 3 records the success.
    [None] is the fatal fault of a padding that cannot fill the tail. *)
Definition Close (w : blockWriter) : option CloseResult :=
  match w_err w with
  | Some e => Some (mkCRes (Some e) w [])
  | None =>
      match w_buffered w with
      | [] =>
          Some (mkCRes None
            (mkWriter (dst w) (w_blockMode w) (w_padding w) (w_blockSize w)
               [] true None) [])
      | _ :: _ =>
          match w_padding w with
          | None =>
              Some (mkCRes (Some ErrUnexpectedEOF)
                (mkWriter (dst w) (w_blockMode w) (w_padding w)
                   (w_blockSize w) (w_buffered w) (w_closed w)
                   (Some ErrUnexpectedEOF)) [])
          | Some padding =>
              let tail := w_blockSize w - length (w_buffered w) in
              match Fill padding (repeat x00 tail) with
              | None => None
              | Some filled =>
                  let (out, m1) :=
                    CryptBlocks (w_blockMode w) (w_buffered w ++ filled) in
                  let '(n, e, k1) := io_Write (dst w) out in
                  let tr := [EvFill tail;
                             EvTransform (length (w_buffered w ++ filled));
                             EvPush (length out)] in
                  match push_status n e (length out) with
                  | Some e1 =>
                      Some (mkCRes (Some e1)
                        (mkWriter k1 m1 (w_padding w) (w_blockSize w) []
                           (w_closed w) (Some e1)) tr)
                  | None =>
                      Some (mkCRes None
                        (mkWriter k1 m1 (w_padding w) (w_blockSize w) []
                           true None) tr)
                  end
              end
          end
      end
  end.

(** Modelled from the spec: the invariant of the writer state (section 3:
    once control returns to the caller, fewer than [blockSize] bytes are
    buffered), for a writer whose padding, if it has one, is able to complete
    a block of its size. *)
Definition writer_inv (w : blockWriter) : Prop :=
  length (w_buffered w) < w_blockSize w /\
  (forall padding, w_padding w = Some padding ->
     fills_block padding (w_blockSize w)).

(** A caller's successive calls on a writer. *)
Inductive WriterCall : Type :=
| CallWrite (source : list byte)
| CallClose.

Record CallResult : Type := mkCall {
  call_n : nat;
  call_err : option error;
  call_w : blockWriter;
  call_trace : list WEvent
}.

Definition call (w : blockWriter) (c : WriterCall) : option CallResult :=
  match c with
  | CallWrite source =>
      let res := Write w source in
      Some (mkCall (wres_n res) (wres_err res) (wres_w res) (wres_trace res))
  | CallClose =>
      match Close w with
      | Some res => Some (mkCall 0 (cres_err res) (cres_w res) (cres_trace res))
      | None => None
      end
  end.

(** The results of the calls [cs] made one after the other; the run stops
    at a fatal fault. *)
Fixpoint calls (w : blockWriter) (cs : list WriterCall)
  : list (option CallResult) :=
  match cs with
  | [] => []
  | c :: cs' =>
      match call w c with
      | Some res => Some res :: calls (call_w res) cs'
      | None => [None]
      end
  end.

(** The writer after the calls [cs]. *)
Definition writer_after (w : blockWriter) (cs : list WriterCall)
  : blockWriter :=
  fold_left (fun w c => match call w c with
                        | Some res => call_w res
                        | None => w
                        end) cs w.

(** What the writer test looks at in a step: the count and the error
    returned, the pushes the mock received. *)
Definition observe_call (o : option CallResult)
  : option (nat * option error * list WEvent) :=
  match o with
  | Some res => Some (call_n res, call_err res, filter is_Push (call_trace res))
  | None => None
  end.

End Writer.

Arguments blockWriter : clear implicits.
Arguments WriteResult : clear implicits.
Arguments CloseResult : clear implicits.
Arguments CallResult : clear implicits.

(** ** Test doubles *)

(** The error of the tests, [fmt.Errorf("test error")]. *)
Definition testErr : error := ErrOther 1.

(** The mock source of the reader test: each call takes the next scripted
    answer, cut to the length asked for; an exhausted script answers
    [0, io.EOF]. *)
Definition Script : Type := list (list byte * option error).

Definition script_Read (s : Script) (k : nat)
  : list byte * option error * Script :=
  match s with
  | [] => ([], Some EOF, [])
  | (d, e) :: s' => (firstn k d, e, s')
  end.

#[export] Instance Script_IoReader : IoReader Script.
Proof.
  refine {| io_Read := script_Read |}.
  intros [|[d e] s'] k; simpl; [ apply Nat.le_0_l | apply firstn_le_length ].
Defined.

(** A chained transform, in the manner of CBC: every byte is mixed with the
    byte produced before it, and the mode remembers the last one. *)
Record Chained : Type := mkChained { ch_size : nat; ch_last : byte }.

Fixpoint chain_bytes (last : byte) (l : list byte) : list byte * byte :=
  match l with
  | [] => ([], last)
  | b :: l' =>
      let c := byte_of_int (Byte.to_nat b + Byte.to_nat last + 1) in
      let (out, last') := chain_bytes c l' in
      (c :: out, last')
  end.

#[export] Instance Chained_BlockMode : BlockMode Chained.
Proof.
  refine {| BlockSize := ch_size;
            CryptBlocks := fun m l =>
              let (out, last) := chain_bytes (ch_last m) l in
              (out, mkChained (ch_size m) last) |}.
  intros m l. generalize (ch_last m). induction l as [|b l IH]; intros last.
  - reflexivity.
  - simpl. specialize (IH (byte_of_int (Byte.to_nat b + Byte.to_nat last + 1))).
    destruct (chain_bytes _ l) as [out last']. simpl in *. now rewrite IH.
Defined.

(** The mode of the tests: blocks of 16 bytes. *)
Definition cbc16 : Chained := mkChained 16 x00.

(** The mock sink of the writer test: each call takes the next scripted
    answer [(ResLen, ResErr)], an exhausted script takes everything; the
    sink keeps the bytes it was handed. *)
Record Sink : Type := mkSink {
  answers : list (nat * option error);
  received : list byte
}.

Definition sink (script : list (nat * option error)) : Sink :=
  mkSink script [].

#[export] Instance Sink_IoWriter : IoWriter Sink :=
  {| io_Write := fun k p =>
       match answers k with
       | [] => (length p, None, mkSink [] (received k ++ p))
       | (n, e) :: rest => (n, e, mkSink rest (received k ++ p))
       end |}.

(** [n] bytes of test data: the bytes of value [start], [start + 1], ... *)
Definition bytes_from (start n : nat) : list byte :=
  map byte_of_int (seq start n).

(** * Properties *)

(** ** Slices and bytes *)

Lemma copy_length (dst src : list byte) :
  length (fst (copy dst src)) = length dst.
Proof.
  unfold copy; simpl.
  rewrite length_app, length_firstn, length_skipn. lia.
Qed.

Lemma copy_count (dst src : list byte) :
  snd (copy dst src) = Nat.min (length dst) (length src).
Proof. reflexivity. Qed.

Lemma length_firstn2 (a b : nat) (l1 l2 : list byte) :
  length (firstn a l1 ++ firstn b l2) <= a + b.
Proof.
  rewrite length_app.
  pose proof (firstn_le_length a l1). pose proof (firstn_le_length b l2).
  lia.
Qed.

Lemma fill_repeat (dst : list byte) (val : byte) :
  fill dst val = repeat val (length dst).
Proof.
  unfold fill. induction dst as [|b dst IH]; simpl; [reflexivity|].
  now rewrite IH.
Qed.

Lemma byte_of_int_small (n : nat) :
  n <= 255 -> Byte.to_nat (byte_of_int n) = n.
Proof.
  intros Hn. unfold byte_of_int.
  rewrite Nat.mod_small by lia.
  destruct (Byte.of_nat n) as [b|] eqn:E.
  - now apply Byte.to_of_nat.
  - apply Byte.of_nat_None_iff in E. lia.
Qed.

(** ** padding.go *)

(** C8.  For a buffer of [n >= 1] bytes (so for every [n] between 1 and the
    block size), each built-in padding writes exactly [n] bytes that depend on
    [n] only, never on what the buffer held: [ZeroPadding] writes [n] zero
    bytes, [BitPadding] writes 0x80 and then [n - 1] zero bytes,
    [PKCS7Padding] writes [n] copies of the byte of value [n] when
    [n <= 255] and panics when [n > 255]. *)
Theorem padding_fill_spec (dst : list byte) (n : nat) :
  length dst = n -> 1 <= n ->
  Fill ZeroPadding dst = Some (repeat x00 n) /\
  Fill BitPadding dst = Some (x80 :: repeat x00 (n - 1)) /\
  (n <= 255 ->
   Fill PKCS7Padding dst = Some (repeat (byte_of_int n) n) /\
   Byte.to_nat (byte_of_int n) = n) /\
  (255 < n -> Fill PKCS7Padding dst = None) /\
  (forall P out,
     In P [ZeroPadding; BitPadding; PKCS7Padding] ->
     Fill P dst = Some out -> length out = n) /\
  (forall P dst',
     In P [ZeroPadding; BitPadding; PKCS7Padding] ->
     length dst' = n -> Fill P dst' = Fill P dst).
Proof.
  intros Hlen Hn.
  assert (HZ : forall d, length d = n ->
               Fill ZeroPadding d = Some (repeat x00 n)).
  { intros d Hd. simpl. now rewrite fill_repeat, Hd. }
  assert (HB : forall d, length d = n ->
               Fill BitPadding d = Some (x80 :: repeat x00 (n - 1))).
  { intros [|b d] Hd; simpl in *; [lia|].
    rewrite fill_repeat. do 3 f_equal. lia. }
  assert (HP : forall d, length d = n ->
               Fill PKCS7Padding d =
               if 255 <? n then None else Some (repeat (byte_of_int n) n)).
  { intros d Hd. simpl. rewrite fill_repeat, Hd. reflexivity. }
  split; [now apply HZ|]. split; [now apply HB|].
  split.
  { intros Hle. rewrite (HP dst Hlen).
    destruct (Nat.ltb_spec 255 n); [lia|].
    split; [reflexivity | now apply byte_of_int_small]. }
  split.
  { intros Hgt. rewrite (HP dst Hlen).
    destruct (Nat.ltb_spec 255 n); [reflexivity | lia]. }
  split.
  - intros P out [<-|[<-|[<-|[]]]] Hout.
    + rewrite (HZ dst Hlen) in Hout. injection Hout as <-.
      apply repeat_length.
    + rewrite (HB dst Hlen) in Hout. injection Hout as <-.
      simpl. rewrite repeat_length. lia.
    + rewrite (HP dst Hlen) in Hout.
      destruct (255 <? n); [discriminate|]. injection Hout as <-.
      apply repeat_length.
  - intros P dst' [<-|[<-|[<-|[]]]] Hd'.
    + now rewrite (HZ dst Hlen), (HZ dst' Hd').
    + now rewrite (HB dst Hlen), (HB dst' Hd').
    + now rewrite (HP dst Hlen), (HP dst' Hd').
Qed.

(** The conformance vectors of the padding test, on a buffer that held other
    bytes before. *)
Lemma padding_fill_spec_witness :
  Fill ZeroPadding [x11; x22; x33; x44; x55]
    = Some [x00; x00; x00; x00; x00] /\
  Fill BitPadding [x11; x22; x33; x44; x55]
    = Some [x80; x00; x00; x00; x00] /\
  Fill PKCS7Padding [x11; x22; x33; x44; x55]
    = Some [x05; x05; x05; x05; x05].
Proof.
  destruct (padding_fill_spec [x11; x22; x33; x44; x55] (n := 5))
    as (HZ & HB & HP & _); [reflexivity | lia |].
  split; [exact HZ|]. split; [exact HB|].
  apply HP. lia.
Defined.

(** ** reader.go *)

Ltac bool_hyps :=
  repeat match goal with
  | H : (_ <? _) = true |- _ => apply Nat.ltb_lt in H
  | H : (_ <? _) = false |- _ => apply Nat.ltb_ge in H
  | H : (_ =? _) = true |- _ => apply Nat.eqb_eq in H
  | H : (_ =? _) = false |- _ => apply Nat.eqb_neq in H
  | H : (_ && _) = true |- _ => apply andb_true_iff in H; destruct H
  end.

(** Case analysis on the innermost test or destructuring [let]. *)
Ltac break_if :=
  match goal with
  | |- context [match ?x with _ => _ end] =>
      lazymatch x with
      | context [match _ with _ => _ end] => fail
      | _ => destruct x eqn:?
      end
  end.

(** Projections of the readers and results built by [Read]. *)
Ltac reader_simpl :=
  cbn [res_n res_err res_p res_r res_trace
       with_src with_blockMode with_buf with_crypted with_eof
       src blockMode blockSize buf crypted eof length] in *.

Section ReaderFacts.
Context {Src BM : Type} `{IoReader Src} `{BlockMode BM}.
Implicit Types (r : blockReader Src BM) (p done : list byte).

(** The answer of the source to the request a reader makes. *)
Lemma io_Read_answer (s : Src) (k : nat) :
  exists data err s', io_Read s k = (data, err, s') /\ length data <= k.
Proof.
  pose proof (io_Read_le s k) as Hle.
  destruct (io_Read s k) as [[data err] s']. simpl in Hle.
  now exists data, err, s'.
Qed.

Lemma CryptBlocks_answer (m : BM) (l : list byte) :
  exists out m', CryptBlocks m l = (out, m') /\ length out = length l.
Proof.
  pose proof (CryptBlocks_length m l) as Hlen.
  destruct (CryptBlocks m l) as [out m']. simpl in Hlen.
  now exists out, m'.
Qed.

Lemma Read_small_inv r done p count :
  crypted r = 0 -> length (buf r) < blockSize r ->
  length p < blockSize r ->
  reader_inv (res_r (Read_small r done p count)).
Proof.
  intros Hc Hb Hp. unfold Read_small.
  destruct (io_Read_answer (src r) (blockSize r - length (buf r)))
    as (data & err & s1 & -> & Hdata).
  reader_simpl.
  destruct (length (buf r ++ data) =? blockSize r) eqn:Efull; bool_hyps.
  - destruct (CryptBlocks_answer (blockMode r) (buf r ++ data))
      as (out & m1 & -> & Hout).
    unfold copy.
    assert (Hmin : Nat.min (length p) (length out) = length p) by lia.
    rewrite Hmin.
    assert (Hinv : forall e,
      reader_inv
        (mkReader s1 m1 (blockSize r) out (blockSize r - length p) e)).
    { intros e. unfold reader_inv; simpl. lia. }
    repeat break_if; simpl; apply Hinv.
  - rewrite length_app in Efull.
    assert (Hinv : forall e,
      reader_inv (mkReader s1 (blockMode r) (blockSize r) (buf r ++ data)
                    (crypted r) e)).
    { intros e. unfold reader_inv; simpl. rewrite length_app. lia. }
    repeat break_if; simpl; apply Hinv.
Qed.

Lemma reader_inv_raw r :
  crypted r = 0 -> length (buf r) < blockSize r -> reader_inv r.
Proof. intros Hc Hb. unfold reader_inv. lia. Qed.

Lemma Read_large_inv r done p count :
  crypted r = 0 -> length (buf r) < blockSize r ->
  reader_inv (res_r (Read_large r done p count)).
Proof.
  intros Hc Hb. unfold Read_large.
  destruct (io_Read_answer (src r) (length p - length (buf r)))
    as (data & err & s1 & -> & Hdata).
  reader_simpl.
  set (available := length (buf r) + length data).
  assert (Hmod : available mod blockSize r < blockSize r)
    by (apply Nat.mod_upper_bound; lia).
  destruct (0 <? available - available mod blockSize r) eqn:Ecr.
  - destruct (CryptBlocks (blockMode r) _) as [out m1].
    apply reader_inv_raw; reader_simpl; [assumption|].
    eapply Nat.le_lt_trans; [apply length_firstn2 | lia].
  - apply reader_inv_raw; reader_simpl; [assumption|].
    eapply Nat.le_lt_trans; [apply length_firstn2 | lia].
Qed.

Lemma Read_fresh_inv r done p count :
  reader_inv r -> crypted r = 0 ->
  reader_inv (res_r (Read_fresh r done p count)).
Proof.
  intros Hinv Hc. unfold Read_fresh.
  assert (Hb : length (buf r) < blockSize r).
  { destruct Hinv as (_ & [[_ ?]|[? _]]); lia. }
  repeat break_if; bool_hyps; simpl; trivial.
  - now apply Read_small_inv.
  - now apply Read_large_inv.
Qed.

Lemma Read_preserves_inv r p :
  reader_inv r -> reader_inv (res_r (Read r p)).
Proof.
  intros Hinv. unfold Read.
  destruct (0 <? crypted r) eqn:Ec; bool_hyps.
  - unfold copy.
    set (copied := Nat.min _ _).
    cbn [with_crypted crypted].
    assert (Hfull : length (buf r) = blockSize r /\ crypted r <= blockSize r).
    { destruct Hinv as (_ & [[? _]|[? ?]]); lia. }
    assert (Hcop : copied <= crypted r).
    { unfold copied. rewrite length_skipn. lia. }
    destruct (0 <? crypted r - copied) eqn:Erem; bool_hyps.
    + unfold reader_inv; simpl. lia.
    + apply Read_fresh_inv.
      * unfold reader_inv; simpl. lia.
      * simpl. lia.
  - apply Read_fresh_inv; [assumption | lia].
Qed.

(** Under the invariant the slice expressions of [Read] are within bounds:
    [r.buf[r.blockSize-r.crypted:]] of line 50; [r.buf[len(r.buf):r.blockSize]]
    and [r.buf[:len(r.buf)+n]] of lines 68-69, the backing array holding
    [blockSize] bytes; [p[len(r.buf):]], [p[:crypted]], [r.buf[:buffered]]
    and the two operands of the last [copy] of lines 87-101, where the
    block size, a divisor, is not zero. *)
Lemma Read_slices_in_bounds r p :
  reader_inv r ->
  (0 < crypted r ->
   crypted r <= blockSize r /\ blockSize r - crypted r <= length (buf r)) /\
  (crypted r = 0 ->
   forall n, n <= blockSize r - length (buf r) ->
   length (buf r) <= blockSize r /\ length (buf r) + n <= blockSize r) /\
  (crypted r = 0 -> blockSize r <= length p ->
   forall n, n <= length p - length (buf r) ->
   let available := length (buf r) + n in
   let buffered := available mod blockSize r in
   let crypted := available - buffered in
   let len_buf := if 0 <? crypted then 0 else length (buf r) in
   let newlyBuffered := buffered - len_buf in
   blockSize r <> 0 /\ length (buf r) <= length p /\ crypted <= length p /\
   buffered <= blockSize r /\ len_buf <= buffered /\
   available - newlyBuffered + newlyBuffered <= length p).
Proof.
  intros (Hle & Hinv). split; [|split].
  - intros Hc. lia.
  - intros Hc n Hn. lia.
  - intros Hc Hp n Hn available buffered crypted' len_buf newlyBuffered.
    assert (Hbs : blockSize r <> 0) by lia.
    pose proof (Nat.mod_upper_bound available (blockSize r) Hbs) as Hmod.
    pose proof (Nat.Div0.mod_le available (blockSize r)) as Hmle.
    fold buffered in Hmod, Hmle.
    assert (Hlen : len_buf <= buffered).
    { unfold len_buf. destruct (0 <? crypted') eqn:E; bool_hyps; [lia|].
      unfold crypted' in E. unfold available in *. lia. }
    unfold newlyBuffered, crypted', available in *. lia.
Qed.

Lemma reader_after_inv r (ps : list (list byte)) :
  reader_inv r -> reader_inv (reader_after r ps).
Proof.
  revert r. induction ps as [|p ps IH]; intros r Hinv; simpl; [assumption|].
  apply IH. now apply Read_preserves_inv.
Qed.

(** C7.  The reader's state invariant holds of a new reader (over a mode
    with a positive block size), is kept by every call to [Read], and so
    holds after any sequence of calls: the buffer never holds more than a
    block, and either nothing transformed is pending ([crypted] is zero) and
    fewer than a block of raw bytes are buffered, or [crypted] is positive
    and the buffer holds exactly one whole transformed block. *)
Theorem reader_invariant (s : Src) (m : BM) (ps : list (list byte)) :
  0 < BlockSize m ->
  reader_inv (NewBlockReader s m) /\
  (forall r p, reader_inv r -> reader_inv (res_r (Read r p))) /\
  reader_inv (reader_after (NewBlockReader s m) ps).
Proof.
  intros Hbs.
  assert (Hnew : reader_inv (NewBlockReader s m)).
  { unfold reader_inv, NewBlockReader; simpl. lia. }
  split; [exact Hnew|]. split.
  - intros r p. apply Read_preserves_inv.
  - now apply reader_after_inv.
Qed.

Lemma Read_fresh_trace r done p count :
  one_read_trace (res_trace (Read_fresh r done p count))
                 (length (buf r) < blockSize r).
Proof.
  unfold one_read_trace, Read_fresh, Read_small, Read_large.
  repeat break_if; reader_simpl; bool_hyps; try (now left); right;
    match goal with |- context [EvSrcRead ?k :: _] => exists k end;
    (split; [intros Hpos; lia|]);
    first [left; reflexivity | right; eexists; reflexivity].
Qed.

Lemma Read_trace r p :
  one_read_trace (res_trace (Read r p)) (reader_inv r).
Proof.
  unfold Read.
  destruct (0 <? crypted r) eqn:Ec; bool_hyps.
  - destruct (copy p _) as [p1 copied]. reader_simpl.
    destruct (0 <? crypted r - copied); reader_simpl; [now left|].
    destruct (Read_fresh_trace
                (with_buf (with_crypted r (crypted r - copied)) [])
                (firstn copied p1) (skipn copied p1) (0 + copied))
      as [E|(k & Hk & E)]; [now left|].
    right. exists k. split; [|exact E].
    intros (_ & [[? _]|[? _]]); apply Hk; reader_simpl; lia.
  - destruct (Read_fresh_trace r [] p 0) as [E|(k & Hk & E)]; [now left|].
    right. exists k. split; [|exact E].
    intros (_ & [[_ ?]|[? _]]); apply Hk; lia.
Qed.

Lemma Read_fresh_moved r done p count :
  moved_by (res_trace (Read_fresh r done p count)) r
           (res_r (Read_fresh r done p count)).
Proof.
  unfold Read_fresh, Read_small, Read_large.
  repeat break_if; reader_simpl; unfold moved_by; reader_simpl;
    repeat match goal with
    | E : io_Read _ _ = _ |- _ => rewrite E; clear E
    end;
    cbn [snd]; try (split; reflexivity);
    (split; [reflexivity|]); eexists;
    match goal with
    | E : CryptBlocks _ _ = _ |- _ => rewrite E
    end; reflexivity.
Qed.

Lemma Read_moved r p :
  moved_by (res_trace (Read r p)) r (res_r (Read r p)).
Proof.
  unfold Read.
  destruct (0 <? crypted r).
  - destruct (copy p _) as [p1 copied]. reader_simpl.
    destruct (0 <? crypted r - copied); reader_simpl.
    + split; reflexivity.
    + apply (Read_fresh_moved
               (with_buf (with_crypted r (crypted r - copied)) [])).
  - apply Read_fresh_moved.
Qed.

(** C5.  Whatever the reader's state and the length of the destination, one
    call to [Read] makes at most one read of the wrapped source and at most
    one call to [CryptBlocks]: so says the trace of the call, and the source
    and the mode it leaves are the ones it found, moved by at most one read
    and at most one transform. *)
Theorem Read_at_most_once r p :
  length (filter is_SrcRead (res_trace (Read r p))) <= 1 /\
  length (filter is_Crypt (res_trace (Read r p))) <= 1 /\
  moved_by (res_trace (Read r p)) r (res_r (Read r p)) /\
  (src (res_r (Read r p)) = src r \/
   exists k, src (res_r (Read r p)) = snd (io_Read (src r) k)) /\
  (blockMode (res_r (Read r p)) = blockMode r \/
   exists l, blockMode (res_r (Read r p))
             = snd (CryptBlocks (blockMode r) l)).
Proof.
  pose proof (Read_moved r p) as Hm.
  destruct (Read_trace r p) as [E|(k & _ & [E|(n & E)])];
    rewrite E in *; simpl in Hm; simpl;
    (split; [lia|]); (split; [lia|]); (split; [exact Hm|]).
  - destruct Hm as [-> ->]. auto.
  - destruct Hm as [-> ->]. split; [right; eauto | left; reflexivity].
  - destruct Hm as [-> (l & ->)]. split; right; eauto.
Qed.

(** The large path leaves the bytes that do not fill a block. *)
Lemma Read_large_buffered r done p count data err s1 :
  io_Read (src r) (length p - length (buf r)) = (data, err, s1) ->
  length (buf r) <= length p -> 0 < blockSize r ->
  length (buf (res_r (Read_large r done p count)))
  = (length (buf r) + length data) mod blockSize r.
Proof.
  intros Hio Hp Hbs.
  pose proof (io_Read_le (src r) (length p - length (buf r))) as Hdata.
  unfold Read_large. rewrite Hio in *. simpl in Hdata. reader_simpl.
  set (available := length (buf r) + length data).
  assert (Hmod : available mod blockSize r <= available)
    by (apply Nat.Div0.mod_le).
  assert (Hp1 : length (firstn (length (buf r)) p
                        ++ fst (copy (skipn (length (buf r)) p) data))
                = length p).
  { rewrite length_app, length_firstn, copy_length, length_skipn. lia. }
  destruct (0 <? available - available mod blockSize r) eqn:Ecr; bool_hyps.
  - destruct (CryptBlocks (blockMode r) _) as [out m1]. reader_simpl.
    rewrite length_app, !length_firstn, length_skipn, !copy_length, Hp1.
    simpl. lia.
  - reader_simpl.
    rewrite length_app, !length_firstn, length_skipn, Hp1. lia.
Qed.

Lemma Read_small_trace_head r done p count :
  exists tl, res_trace (Read_small r done p count)
             = EvSrcRead (blockSize r - length (buf r)) :: tl.
Proof.
  unfold Read_small. repeat break_if; reader_simpl; eexists; reflexivity.
Qed.

Lemma Read_large_trace_head r done p count :
  exists tl, res_trace (Read_large r done p count)
             = EvSrcRead (length p - length (buf r)) :: tl.
Proof.
  unfold Read_large. repeat break_if; reader_simpl; eexists; reflexivity.
Qed.

(** What [Read] answers when the source signals the end of the stream, from
    the point where it turns to the source. *)
Lemma Read_fresh_eof r done p count k tl data s' :
  crypted r = 0 -> length (buf r) < blockSize r ->
  res_trace (Read_fresh r done p count) = EvSrcRead k :: tl ->
  io_Read (src r) k = (data, Some EOF, s') ->
  let res := Read_fresh r done p count in
  (crypted (res_r res) = 0 -> buf (res_r res) = [] ->
   res_err res = Some EOF) /\
  (crypted (res_r res) = 0 -> buf (res_r res) <> [] ->
   res_err res = Some ErrUnexpectedEOF) /\
  (data = [] ->
   res_n res = count /\ buf (res_r res) = buf r /\ crypted (res_r res) = 0).
Proof.
  intros Hc Hb Htr Hio. unfold Read_fresh in *.
  destruct (eof r); [discriminate|].
  destruct (length p =? 0) eqn:Ep0; [discriminate|].
  destruct (length p <? blockSize r) eqn:Esmall; bool_hyps.
  - (* the small path *)
    assert (Hk : k = blockSize r - length (buf r)).
    { destruct (Read_small_trace_head r done p count) as [tl' E'].
      rewrite E' in Htr. now injection Htr. }
    subst k. clear Htr. unfold Read_small. rewrite Hio. reader_simpl.
    destruct (length (buf r ++ data) =? blockSize r) eqn:Efull; bool_hyps.
    + destruct (CryptBlocks_answer (blockMode r) (buf r ++ data))
        as (out & m1 & -> & Hout).
      unfold copy. reader_simpl.
      assert (Hpos : (0 <? blockSize r
                             - Nat.min (length p) (length out)) = true)
        by (apply Nat.ltb_lt; lia).
      cbn [is_EOF error_eqb]. rewrite Hpos. reader_simpl.
      bool_hyps. split; [|split].
      * intros Hz. lia.
      * intros Hz. lia.
      * intros ->. rewrite app_nil_r in Efull. lia.
    + cbn [is_EOF error_eqb]. reader_simpl. rewrite Hc, Nat.ltb_irrefl.
      destruct (0 <? length (buf r ++ data)) eqn:Enz; bool_hyps;
        reader_simpl; (split; [|split]).
      * intros _ E. rewrite E in Enz. simpl in Enz. lia.
      * reflexivity.
      * intros ->. rewrite app_nil_r. auto.
      * reflexivity.
      * intros _ Hne. destruct (buf r ++ data); [now elim Hne|].
        simpl in Enz. lia.
      * intros ->. rewrite app_nil_r. auto.
  - (* the large path *)
    pose proof (fun d e s1 E =>
      @Read_large_buffered r done p count d e s1 E) as Hlen.
    assert (Hk : k = length p - length (buf r)).
    { destruct (Read_large_trace_head r done p count) as [tl' E'].
      rewrite E' in Htr. now injection Htr. }
    subst k. clear Htr.
    specialize (Hlen data (Some EOF) s' Hio ltac:(lia) ltac:(lia)).
    unfold Read_large in *. rewrite Hio in *. reader_simpl.
    set (available := length (buf r) + length data) in *.
    assert (Hraw : data = [] ->
              available mod blockSize r = length (buf r) /\
              available - available mod blockSize r = 0).
    { intros ->. unfold available. simpl.
      rewrite Nat.add_0_r, Nat.mod_small by lia. lia. }
    cbn [is_EOF error_eqb].
    destruct (0 <? available - available mod blockSize r) eqn:Ecr;
      [destruct (CryptBlocks (blockMode r) _) as [out m1]|];
      reader_simpl; bool_hyps;
      (destruct (0 <? available mod blockSize r) eqn:Ebuf; bool_hyps;
       cbn [andb]; (split; [|split]));
      try reflexivity;
      try (intros _ E; rewrite E in Hlen; simpl in Hlen; lia);
      try (intros _ Hne; destruct (firstn _ _ ++ firstn _ _);
           [now elim Hne | simpl in Hlen; lia]);
      intros Hd; destruct (Hraw Hd) as [Hm Hz]; try lia;
      (split; [reflexivity|split; [|assumption]]);
      rewrite Hm, Nat.sub_diag, Nat.sub_0_r, firstn_all; simpl;
      apply app_nil_r.
Qed.

(** C6.  When the read of the source made by a call to [Read] signals the
    end of the stream: if nothing is then buffered and nothing transformed is
    pending, the call reports [io.EOF], and with no byte at all when the
    reader held nothing and the source gave nothing; if a partial block is
    then buffered, the call reports [io.ErrUnexpectedEOF], an error distinct
    from [io.EOF] and from any other error of the source. *)
Theorem Read_end_of_stream r p k tl data s' :
  reader_inv r ->
  res_trace (Read r p) = EvSrcRead k :: tl ->
  io_Read (src r) k = (data, Some EOF, s') ->
  let res := Read r p in
  (crypted (res_r res) = 0 -> buf (res_r res) = [] ->
   res_err res = Some EOF) /\
  (data = [] -> crypted r = 0 -> buf r = [] ->
   res_n res = 0 /\ res_err res = Some EOF) /\
  (crypted (res_r res) = 0 -> buf (res_r res) <> [] ->
   length (buf (res_r res)) < blockSize (res_r res) /\
   res_err res = Some ErrUnexpectedEOF) /\
  (data = [] -> crypted r = 0 -> buf r <> [] ->
   res_n res = 0 /\ res_err res = Some ErrUnexpectedEOF) /\
  ErrUnexpectedEOF <> EOF /\
  (forall tag, ErrUnexpectedEOF <> ErrOther tag).
Proof.
  intros Hinv Htr Hio res.
  pose proof (Read_preserves_inv p Hinv) as Hinv'. fold res in Hinv'.
  assert (Hfresh :
    (crypted (res_r res) = 0 -> buf (res_r res) = [] ->
     res_err res = Some EOF) /\
    (crypted (res_r res) = 0 -> buf (res_r res) <> [] ->
     res_err res = Some ErrUnexpectedEOF) /\
    (data = [] -> crypted r = 0 ->
     res_n res = 0 /\ buf (res_r res) = buf r /\ crypted (res_r res) = 0)).
  { subst res. unfold Read in *.
    destruct (0 <? crypted r) eqn:Ec; bool_hyps.
    - destruct (copy p _) as [p1 copied]. reader_simpl.
      destruct (0 <? crypted r - copied) eqn:Erem; [discriminate|].
      bool_hyps.
      destruct (@Read_fresh_eof
                  (with_buf (with_crypted r (crypted r - copied)) [])
                  (firstn copied p1) (skipn copied p1) (0 + copied)
                  k tl data s') as (H1 & H2 & _); reader_simpl;
        try assumption; try lia.
      { destruct Hinv as (_ & [[? _]|[? _]]); lia. }
      split; [exact H1|]. split; [exact H2|]. intros _ Hz. lia.
    - destruct (@Read_fresh_eof r [] p 0 k tl data s') as (H1 & H2 & H3);
        try assumption; try lia.
      { destruct Hinv as (_ & [[_ ?]|[? _]]); lia. }
      split; [exact H1|]. split; [exact H2|]. intros Hd _. now apply H3. }
  destruct Hfresh as (H1 & H2 & H3).
  split; [exact H1|]. split.
  { intros Hd Hc Hb. destruct (H3 Hd Hc) as (Hn & Hbuf & Hc').
    split; [exact Hn|]. apply H1; [exact Hc'|]. now rewrite Hbuf. }
  split.
  { intros Hc' Hne. split; [|now apply H2].
    destruct Hinv' as (_ & [[_ ?]|[? _]]); lia. }
  split.
  { intros Hd Hc Hne. destruct (H3 Hd Hc) as (Hn & Hbuf & Hc').
    split; [exact Hn|]. apply H2; [exact Hc'|]. now rewrite Hbuf. }
  split; [discriminate|]. intros tag. discriminate.
Qed.

(** An error of the source other than [io.EOF] is returned as it is by the
    call during which it occurs. *)
Lemma Read_fresh_error r done p count k tl data e s' :
  res_trace (Read_fresh r done p count) = EvSrcRead k :: tl ->
  io_Read (src r) k = (data, Some e, s') -> e <> EOF ->
  res_err (Read_fresh r done p count) = Some e.
Proof.
  intros Htr Hio Hne.
  assert (HnotEOF : is_EOF (Some e) = false)
    by (destruct e; simpl; congruence).
  unfold Read_fresh in *.
  destruct (eof r); [discriminate|].
  destruct (length p =? 0); [discriminate|].
  destruct (length p <? blockSize r).
  - assert (Hk : k = blockSize r - length (buf r)).
    { destruct (Read_small_trace_head r done p count) as [tl' E'].
      rewrite E' in Htr. now injection Htr. }
    subst k. unfold Read_small. rewrite Hio, HnotEOF.
    repeat break_if; reflexivity.
  - assert (Hk : k = length p - length (buf r)).
    { destruct (Read_large_trace_head r done p count) as [tl' E'].
      rewrite E' in Htr. now injection Htr. }
    subst k. unfold Read_large. rewrite Hio, HnotEOF. cbn [andb].
    repeat break_if; reflexivity.
Qed.

Lemma Read_error_verbatim r p k tl data e s' :
  res_trace (Read r p) = EvSrcRead k :: tl ->
  io_Read (src r) k = (data, Some e, s') -> e <> EOF ->
  res_err (Read r p) = Some e.
Proof.
  intros Htr Hio Hne. unfold Read in *.
  destruct (0 <? crypted r).
  - destruct (copy p _) as [p1 copied]. reader_simpl.
    destruct (0 <? crypted r - copied); [discriminate|].
    eapply Read_fresh_error; eauto.
  - eapply Read_fresh_error; eauto.
Qed.

(** Once the flag [eof] is set and the pending bytes are handed out, [Read]
    answers [0, io.EOF] and leaves everything as it is. *)
Lemma Read_eof_flag r p :
  eof r = true -> crypted r = 0 ->
  Read r p = mkRes 0 (Some EOF) p r [].
Proof.
  intros He Hc. unfold Read, Read_fresh. rewrite Hc, He. reflexivity.
Qed.

(** C10.  The source is never handed an empty buffer; a call with an empty
    destination on a reader whose [eof] flag is not set returns [0, nil]
    without a call to the source or to [CryptBlocks]; [BitPadding] panics on
    an empty buffer, where [ZeroPadding] and [PKCS7Padding] write nothing. *)
Theorem Read_never_reads_nothing r p :
  reader_inv r ->
  (forall k, In (EvSrcRead k) (res_trace (Read r p)) -> 0 < k) /\
  (length p = 0 -> eof r = false ->
   res_n (Read r p) = 0 /\ res_err (Read r p) = None /\
   res_trace (Read r p) = []) /\
  Fill BitPadding [] = None /\
  Fill ZeroPadding [] = Some [] /\
  Fill PKCS7Padding [] = Some [].
Proof.
  intros Hinv. split; [|split; [|repeat split]].
  - intros k Hin.
    destruct (Read_trace r p) as [E|(k' & Hk' & [E|(n & E)])];
      rewrite E in Hin; simpl in Hin.
    + contradiction.
    + destruct Hin as [[= <-]|[]]. now apply Hk'.
    + destruct Hin as [[= <-]|[[=]|[]]]. now apply Hk'.
  - intros Hp He. destruct p; [|discriminate]. unfold Read, Read_fresh.
    destruct (0 <? crypted r) eqn:Ec.
    + cbn [copy length Nat.min firstn skipn app]. reader_simpl.
      rewrite Nat.sub_0_r, Ec. auto.
    + rewrite He. simpl. auto.
Qed.

End ReaderFacts.

(** *** The reader on the scripts of its test *)

(** The invariant along the first steps of the test VariousReadPatterns. *)
Lemma reader_invariant_witness :
  reader_inv
    (reader_after
       (NewBlockReader
          [(bytes_from 0 5, None); (bytes_from 5 5, None);
           (bytes_from 10 6, None); (bytes_from 16 24, None)] cbc16)
       [repeat x00 3; repeat x00 3; repeat x00 3; repeat x00 5;
        repeat x00 8; repeat x00 24]).
Proof.
  apply (reader_invariant
           [(bytes_from 0 5, None); (bytes_from 5 5, None);
            (bytes_from 10 6, None); (bytes_from 16 24, None)] cbc16).
  simpl. lia.
Defined.

(** The test SmallBufUnexpectedEOF: five bytes are buffered, the source gives
    five more and signals the end. *)
Lemma Read_end_of_stream_witness :
  res_err
    (Read (mkReader [(bytes_from 5 5, Some EOF)] cbc16 16 (bytes_from 0 5)
             0 false)
          (repeat x00 3))
  = Some ErrUnexpectedEOF.
Proof.
  refine (proj2 (proj1 (proj2 (proj2
    (@Read_end_of_stream _ _ _ _
       (mkReader [(bytes_from 5 5, Some EOF)] cbc16 16 (bytes_from 0 5)
          0 false)
       (repeat x00 3) 11 [] (bytes_from 5 5) [] _ _ _))) _ _)).
  - unfold reader_inv. simpl. lia.
  - reflexivity.
  - reflexivity.
  - reflexivity.
  - discriminate.
Defined.

(** A call with an empty destination on a new reader. *)
Lemma Read_never_reads_nothing_witness :
  res_trace (Read (NewBlockReader [(bytes_from 0 5, None)] cbc16) []) = [].
Proof.
  refine (proj2 (proj2 (proj1 (proj2
    (@Read_never_reads_nothing _ _ _ _
       (NewBlockReader [(bytes_from 0 5, None)] cbc16) [] _)) _ _))).
  - unfold reader_inv. simpl. lia.
  - reflexivity.
  - reflexivity.
Defined.

(** C1, on the code.  The test VariousReadPatterns ends with a call that gets
    three blocks and [io.EOF] and a call "after EOF" that must not reach the
    mock.  The first of the two goes through the large path, which does not
    set [eof]: the second one reads the source again, with a buffer of 16
    bytes; when the source has more to give, it returns these bytes and no
    error.  The same after [io.ErrUnexpectedEOF]: the next call reads the
    source again, and a call with an empty destination returns [nil]. *)
Theorem Read_after_EOF_reads_again :
  (let r0 := NewBlockReader [(bytes_from 0 48, Some EOF)] cbc16 in
   let res1 := Read r0 (repeat x00 48) in
   let res2 := Read (res_r res1) (repeat x00 16) in
   (res_n res1, res_err res1) = (48, Some EOF) /\
   eof (res_r res1) = false /\
   res_trace res2 = [EvSrcRead 16]) /\
  (let r0 := NewBlockReader
               [(bytes_from 0 48, Some EOF); (bytes_from 48 16, None)]
               cbc16 in
   let res1 := Read r0 (repeat x00 48) in
   let res2 := Read (res_r res1) (repeat x00 16) in
   (res_n res1, res_err res1) = (48, Some EOF) /\
   (res_n res2, res_err res2) = (16, None)) /\
  (let r0 := NewBlockReader [(bytes_from 0 5, Some EOF)] cbc16 in
   let res1 := Read r0 (repeat x00 3) in
   let res2 := Read (res_r res1) (repeat x00 3) in
   let res3 := Read (res_r res2) [] in
   (res_n res1, res_err res1) = (0, Some ErrUnexpectedEOF) /\
   res_trace res2 = [EvSrcRead 11] /\
   (res_n res3, res_err res3) = (0, None)).
Proof. vm_compute. repeat split. Qed.

(** C2, on the code.  The test SmallBufErrWithData: the source fails with
    [testErr] while giving the bytes that complete a block.  [Read] returns
    3 bytes and [testErr] at once; the call that hands out the 13 bytes left
    returns [nil], not [testErr] again, and the call after that reads the
    source again. *)
Theorem Read_error_not_repeated :
  map (fun res => (res_n res, res_err res, res_trace res))
      (Reads (NewBlockReader
                [(bytes_from 0 5, None); (bytes_from 5 11, Some testErr)]
                cbc16)
             [repeat x00 3; repeat x00 3; repeat x00 13; repeat x00 4])
  = [(0, None, [EvSrcRead 16]);
     (3, Some testErr, [EvSrcRead 11; EvCrypt 16]);
     (13, None, []);
     (0, Some EOF, [EvSrcRead 16])].
Proof. vm_compute. reflexivity. Qed.

(** ** The block writer *)

(** The paddings of the package complete a block: [ZeroPadding] and
    [BitPadding] of any size, [PKCS7Padding] of at most 255 bytes. *)
Lemma ZeroPadding_fills_block (bs : nat) : fills_block ZeroPadding bs.
Proof.
  intros dst _. eexists. split; [reflexivity|]. apply length_map.
Qed.

Lemma BitPadding_fills_block (bs : nat) : fills_block BitPadding bs.
Proof.
  intros [|b dst] [H1 _]; [simpl in H1; lia|].
  eexists. split; [reflexivity|]. cbn [length]. unfold fill.
  now rewrite length_map.
Qed.


Section WriterFacts.
Context {K BM : Type} `{IoWriter K} `{BlockMode BM}.
Implicit Types (w : blockWriter K BM) (source : list byte).

(** A writer with a recorded fault answers it and does nothing else. *)
Lemma Write_faulted w source e :
  w_err w = Some e -> Write w source = mkWRes 0 (Some e) source w [].
Proof. intros He. unfold Write. now rewrite He. Qed.

Lemma Close_faulted w e :
  w_err w = Some e -> Close w = Some (mkCRes (Some e) w []).
Proof. intros He. unfold Close. now rewrite He. Qed.

(** Every error [Write] and [Close] return is recorded as the fault. *)
Lemma Write_error_recorded w source e :
  wres_err (Write w source) = Some e ->
  w_err (wres_w (Write w source)) = Some e.
Proof.
  unfold Write. destruct (w_err w) as [e0|] eqn:He; simpl.
  - intros [= <-]. exact He.
  - destruct (push_batches _ _ _) as [[[[sent e'] m1] k1] tr].
    destruct e'; simpl; [trivial | discriminate].
Qed.

Lemma Close_error_recorded w res e :
  Close w = Some res -> cres_err res = Some e -> w_err (cres_w res) = Some e.
Proof.
  unfold Close. intros HC.
  repeat match type of HC with
  | context [match ?x with _ => _ end] =>
      lazymatch x with
      | context [match _ with _ => _ end] => fail
      | _ => destruct x eqn:?
      end
  end;
  try discriminate; injection HC as <-; simpl; try discriminate;
  intros [= <-]; assumption || reflexivity.
Qed.

Lemma call_faulted w (c : WriterCall) e :
  w_err w = Some e -> call w c = Some (mkCall 0 (Some e) w []).
Proof.
  intros He. destruct c as [source|]; simpl.
  - now rewrite Write_faulted with (e := e).
  - now rewrite Close_faulted with (e := e).
Qed.

Lemma calls_faulted w (cs : list WriterCall) e :
  w_err w = Some e ->
  calls w cs = map (fun _ => Some (mkCall 0 (Some e) w [])) cs.
Proof.
  intros He. induction cs as [|c cs IH]; simpl; [reflexivity|].
  rewrite call_faulted with (e := e) by assumption. simpl. now rewrite IH.
Qed.

(** C3.  The first error a call to [Write] or [Close] returns, a failed push
    or [io.ErrUnexpectedEOF], is recorded by the writer; from then on every
    [Write], whatever its source, and every [Close] returns that same error
    with a count of zero, leaves the writer as it is and makes no call to the
    padding, the transform or the sink. *)
Theorem writer_sticky_fault w (c : WriterCall) res e (cs : list WriterCall) :
  call w c = Some res -> call_err res = Some e ->
  w_err (call_w res) = Some e /\
  (forall source,
     Write (call_w res) source = mkWRes 0 (Some e) source (call_w res) []) /\
  Close (call_w res) = Some (mkCRes (Some e) (call_w res) []) /\
  calls (call_w res) cs
  = map (fun _ => Some (mkCall 0 (Some e) (call_w res) [])) cs.
Proof.
  intros Hcall Herr.
  assert (Hrec : w_err (call_w res) = Some e).
  { destruct c as [source|]; simpl in Hcall.
    - injection Hcall as <-. simpl in *. now apply Write_error_recorded.
    - destruct (Close w) as [cres|] eqn:HC; [|discriminate].
      injection Hcall as <-. simpl in *.
      now apply Close_error_recorded with (w := w). }
  split; [exact Hrec|]. split; [|split].
  - intros source. now apply Write_faulted.
  - now apply Close_faulted.
  - now apply calls_faulted.
Qed.

(** The invariant of the writer state: it holds of a new writer and every
    call keeps it. *)
Lemma NewBlockWriterWithPadding_inv (k : K) (m : BM)
      (padding : option Padding) :
  0 < BlockSize m ->
  (forall P, padding = Some P -> fills_block P (BlockSize m)) ->
  writer_inv (NewBlockWriterWithPadding k m padding).
Proof. intros Hbs Hp. split; [exact Hbs|exact Hp]. Qed.

Lemma Write_preserves_inv w source :
  writer_inv w -> writer_inv (wres_w (Write w source)).
Proof.
  intros [Hb Hp]. unfold Write.
  destruct (w_err w); [now split|].
  destruct (push_batches _ _ _) as [[[[sent e] m1] k1] tr].
  destruct e; (split; [|exact Hp]); cbn [wres_w w_buffered w_blockSize].
  - cbn [length]. lia.
  - rewrite length_skipn.
    pose proof (Nat.div_mod_eq (length (w_buffered w ++ source))
                  (w_blockSize w)) as E.
    pose proof (Nat.mod_upper_bound (length (w_buffered w ++ source))
                  (w_blockSize w) ltac:(lia)) as Hlt.
    lia.
Qed.

(** Under the invariant [Close] returns: the padding can fill the tail. *)
Lemma Close_returns w :
  writer_inv w -> exists res, Close w = Some res /\ writer_inv (cres_w res).
Proof.
  intros [Hb Hp]. unfold Close, writer_inv.
  destruct (w_err w); [eexists; split; [reflexivity|now split]|].
  destruct (w_buffered w) as [|b bs] eqn:Ebuf.
  { eexists. split; [reflexivity|]. split; [simpl; lia|exact Hp]. }
  assert (Htail : 1 <= length (repeat x00 (w_blockSize w - length (b :: bs)))
                  <= w_blockSize w).
  { rewrite repeat_length. cbn [length] in Hb |- *. lia. }
  destruct (w_padding w) as [P|] eqn:Epad.
  2:{ eexists. split; [reflexivity|]. split; [exact Hb|exact Hp]. }
  destruct (Hp P eq_refl _ Htail) as (filled & -> & _).
  destruct (CryptBlocks _ _) as [out m1].
  destruct (io_Write _ _) as [[n e] k1].
  destruct (push_status n e (length out));
    (eexists; split; [reflexivity|]);
    (split; [simpl; lia|exact Hp]).
Qed.

Lemma call_preserves_inv w (c : WriterCall) :
  writer_inv w ->
  exists res, call w c = Some res /\ writer_inv (call_w res).
Proof.
  intros Hinv. destruct c as [source|]; cbn [call].
  - eexists. split; [reflexivity|]. now apply Write_preserves_inv.
  - destruct (Close_returns Hinv) as (res & -> & Hinv').
    eexists. split; [reflexivity|exact Hinv'].
Qed.

Lemma writer_after_inv w (cs : list WriterCall) :
  writer_inv w -> writer_inv (writer_after w cs).
Proof.
  revert w. induction cs as [|c cs IH]; intros w Hinv; [exact Hinv|].
  cbn [writer_after fold_left].
  destruct (call_preserves_inv c Hinv) as (res & -> & Hinv').
  now apply IH.
Qed.

(** So the invariant holds of a writer made by [NewBlockWriterWithPadding],
    over a mode with a positive block size and with no padding or one able
    to complete a block, after any calls. *)
Lemma writer_invariant (k : K) (m : BM) (padding : option Padding)
      (cs : list WriterCall) :
  0 < BlockSize m ->
  (forall P, padding = Some P -> fills_block P (BlockSize m)) ->
  writer_inv (writer_after (NewBlockWriterWithPadding k m padding) cs).
Proof.
  intros Hbs Hp. now apply writer_after_inv, NewBlockWriterWithPadding_inv.
Qed.

(** The fatal fault of a padding that cannot fill the tail is that of
    [Close]: such a padding is not one the invariant admits. *)
Lemma Close_fill_fault w (P : Padding) :
  w_err w = None -> w_buffered w <> [] -> w_padding w = Some P ->
  Fill P (repeat x00 (w_blockSize w - length (w_buffered w))) = None ->
  Close w = None.
Proof.
  intros He Hb Hp HF. unfold Close. rewrite He, Hp.
  destruct (w_buffered w) as [|b bs]; [now elim Hb|]. now rewrite HF.
Qed.



End WriterFacts.

(** *** The writer on the scripts of its test *)

(** The test WriteErr: the sink takes 12 of the 16 bytes of the first block
    and fails; the calls that follow return its error and do nothing. *)
Lemma writer_sticky_fault_witness :
  calls (wres_w (Write (NewBlockWriter (sink [(12, Some testErr)]) cbc16)
                       (bytes_from 0 20)))
        [CallWrite (bytes_from 20 3); CallClose; CallClose]
  = map (fun _ =>
           Some (mkCall 0 (Some testErr)
                   (wres_w (Write (NewBlockWriter (sink [(12, Some testErr)])
                                                  cbc16)
                                  (bytes_from 0 20))) []))
        [CallWrite (bytes_from 20 3); CallClose; CallClose].
Proof.
  exact (proj2 (proj2 (proj2
    (@writer_sticky_fault _ _ _ _
       (NewBlockWriter (sink [(12, Some testErr)]) cbc16)
       (CallWrite (bytes_from 0 20)) _ testErr
       [CallWrite (bytes_from 20 3); CallClose; CallClose]
       eq_refl eq_refl)))).
Defined.


(** The spec does not say what a [Write] does after a [Close] that
    succeeded.  In the model it buffers as before, and the [Close] that
    follows goes by the buffered bytes, as the cases of section 4.3 do. *)
Example writer_Close_Write_Close :
  map observe_call
    (calls (NewBlockWriter (sink []) cbc16)
           [CallClose; CallWrite (bytes_from 0 3); CallClose; CallClose])
  = [Some (0, None, []); Some (3, None, []);
     Some (0, Some ErrUnexpectedEOF, []);
     Some (0, Some ErrUnexpectedEOF, [])].
Proof. vm_compute. reflexivity. Qed.


(** ** The tests of the repository, replayed *)

(** [chunks] loses nothing: its fuel is enough. *)
Lemma chunks_fuel_concat (fuel cap : nat) (l : list byte) :
  0 < cap -> length l <= fuel -> concat (chunks_fuel fuel cap l) = l.
Proof.
  intros Hcap. revert l.
  induction fuel as [|fuel IH]; intros l Hl.
  - destruct l; [reflexivity | simpl in Hl; lia].
  - destruct l as [|b l]; [reflexivity|].
    cbn [chunks_fuel concat]. rewrite IH.
    + apply firstn_skipn.
    + rewrite length_skipn. cbn [length] in Hl |- *. lia.
Qed.

Lemma chunks_concat (cap : nat) (l : list byte) :
  0 < cap -> concat (chunks cap l) = l.
Proof. intros Hcap. now apply chunks_fuel_concat. Qed.

(** The steps of the reader test that the reader passes: each triple is the
    expected count, the expected error, and the request the mock expects. *)
Example reader_test_VariousReadPatterns :
  map observe
    (Reads (NewBlockReader
              [(bytes_from 0 5, None); (bytes_from 5 5, None);
               (bytes_from 10 6, None); (bytes_from 16 24, None);
               (bytes_from 40 12, None); (bytes_from 52 12, None);
               (bytes_from 64 48, Some EOF)] cbc16)
           [repeat x00 3; repeat x00 3; repeat x00 3; repeat x00 5;
            repeat x00 8; repeat x00 24; repeat x00 20; repeat x00 16;
            []; repeat x00 48])
  = [(0, None, [EvSrcRead 16]); (0, None, [EvSrcRead 11]);
     (3, None, [EvSrcRead 6; EvCrypt 16]); (5, None, []); (8, None, []);
     (16, None, [EvSrcRead 24; EvCrypt 16]);
     (16, None, [EvSrcRead 12; EvCrypt 16]);
     (16, None, [EvSrcRead 12; EvCrypt 16]);
     (0, None, []); (48, Some EOF, [EvSrcRead 48; EvCrypt 48])].
Proof. vm_compute. reflexivity. Qed.

(** The bytes delivered along these steps are the transformed stream. *)
Example reader_test_bytes :
  delivered
    (Reads (NewBlockReader
              [(bytes_from 0 5, None); (bytes_from 5 5, None);
               (bytes_from 10 6, None); (bytes_from 16 24, None);
               (bytes_from 40 12, None); (bytes_from 52 12, None);
               (bytes_from 64 48, Some EOF)] cbc16)
           [repeat x00 3; repeat x00 3; repeat x00 3; repeat x00 5;
            repeat x00 8; repeat x00 24; repeat x00 20; repeat x00 16;
            []; repeat x00 48])
  = fst (CryptBlocks cbc16 (bytes_from 0 112)).
Proof. vm_compute. reflexivity. Qed.

Example reader_test_SmallBufEOFWithData :
  map observe
    (Reads (NewBlockReader [(bytes_from 0 16, Some EOF)] cbc16)
           [repeat x00 12; repeat x00 12; repeat x00 12])
  = [(12, None, [EvSrcRead 16; EvCrypt 16]); (4, Some EOF, []);
     (0, Some EOF, [])].
Proof. vm_compute. reflexivity. Qed.

Example reader_test_LargeBufUnexpectedEOF :
  map observe
    (Reads (NewBlockReader [(bytes_from 0 24, Some EOF)] cbc16)
           [repeat x00 32])
  = [(16, Some ErrUnexpectedEOF, [EvSrcRead 32; EvCrypt 16])].
Proof. vm_compute. reflexivity. Qed.

Example reader_test_LargeBufErr :
  map observe
    (Reads (NewBlockReader [(bytes_from 0 24, Some testErr)] cbc16)
           [repeat x00 32])
  = [(16, Some testErr, [EvSrcRead 32; EvCrypt 16])].
Proof. vm_compute. reflexivity. Qed.

(** The writer test: each triple is the expected count, the expected error
    and the pushes the mock expects. *)
Example writer_test_VariousWritePatterns :
  map observe_call
    (calls (NewBlockWriter (sink []) cbc16)
           [CallWrite (bytes_from 0 3); CallWrite (bytes_from 3 6);
            CallWrite (bytes_from 9 20);
            CallWrite (bytes_from 29 (1025 * 16 + 9));
            CallWrite (bytes_from 0 42); CallWrite (bytes_from 0 48);
            CallClose; CallClose])
  = [Some (3, None, []); Some (6, None, []);
     Some (20, None, [EvPush 16]);
     Some (1025 * 16 + 9, None, [EvPush (1024 * 16); EvPush 32]);
     Some (42, None, [EvPush 48]); Some (48, None, [EvPush 48]);
     Some (0, None, []); Some (0, None, [])].
Proof. vm_compute. reflexivity. Qed.

Example writer_test_UnexpectedEOF :
  map observe_call
    (calls (NewBlockWriter (sink []) cbc16)
           [CallWrite (bytes_from 0 3); CallClose; CallClose])
  = [Some (3, None, []); Some (0, Some ErrUnexpectedEOF, []);
     Some (0, Some ErrUnexpectedEOF, [])].
Proof. vm_compute. reflexivity. Qed.

Example writer_test_WriteErrWithBuffer :
  map observe_call
    (calls (NewBlockWriter (sink [(12, Some testErr)]) cbc16)
           [CallWrite (bytes_from 0 3); CallWrite (bytes_from 3 20);
            CallWrite (bytes_from 23 3); CallClose; CallClose])
  = [Some (3, None, []); Some (9, Some testErr, [EvPush 16]);
     Some (0, Some testErr, []); Some (0, Some testErr, []);
     Some (0, Some testErr, [])].
Proof. vm_compute. reflexivity. Qed.

Example writer_test_WriteErrWithBufferOnly :
  map observe_call
    (calls (NewBlockWriter (sink [(2, Some testErr)]) cbc16)
           [CallWrite (bytes_from 0 3); CallWrite (bytes_from 3 20);
            CallWrite (bytes_from 23 3); CallClose; CallClose])
  = [Some (3, None, []); Some (0, Some testErr, [EvPush 16]);
     Some (0, Some testErr, []); Some (0, Some testErr, []);
     Some (0, Some testErr, [])].
Proof. vm_compute. reflexivity. Qed.

Example writer_test_Padding :
  map observe_call
    (calls (NewBlockWriterWithPadding (sink [(16, None)]) cbc16
              (Some PKCS7Padding))
           [CallWrite (bytes_from 0 3); CallClose; CallClose])
  = [Some (3, None, []); Some (0, None, [EvPush 16]); Some (0, None, [])].
Proof. vm_compute. reflexivity. Qed.

(** The bytes the sink received are the transformed stream, block after
    block, and with a padding the padded last block. *)
Example writer_test_bytes :
  received
    (dst (writer_after (NewBlockWriter (sink []) cbc16)
            [CallWrite (bytes_from 0 3); CallWrite (bytes_from 3 6);
             CallWrite (bytes_from 9 20); CallWrite (bytes_from 29 42);
             CallWrite (bytes_from 71 25); CallClose]))
  = fst (CryptBlocks cbc16 (bytes_from 0 96)).
Proof. vm_compute. reflexivity. Qed.

Example writer_test_padded_bytes :
  received
    (dst (writer_after
            (NewBlockWriterWithPadding (sink []) cbc16 (Some PKCS7Padding))
            [CallWrite (bytes_from 0 19); CallClose]))
  = fst (CryptBlocks cbc16 (bytes_from 0 19 ++ repeat x0d 13)).
Proof. vm_compute. reflexivity. Qed.

(** * Further properties *)

(** ** padding.go: what a padding lets one take off again *)

Lemma zeros_marker_inj (a b : nat) (x y : list byte) :
  repeat x00 a ++ x80 :: x = repeat x00 b ++ x80 :: y -> a = b /\ x = y.
Proof.
  revert b. induction a as [|a IH]; intros [|b]; simpl; intros E.
  - injection E as ->. auto.
  - discriminate.
  - discriminate.
  - injection E as E. destruct (IH b E) as [-> ->]. auto.
Qed.

Lemma repeat_rev_same (v : byte) (n : nat) : rev (repeat v n) = repeat v n.
Proof.
  induction n as [|n IH]; [reflexivity|].
  simpl. rewrite IH. symmetry. apply repeat_cons.
Qed.

(** A block padded by [BitPadding] tells where its data ends: two pieces of
    data that give the same padded bytes are the same piece of data, with
    the same number of padding bytes. *)
Theorem BitPadding_removable (d1 d2 dst1 dst2 out1 out2 : list byte) :
  Fill BitPadding dst1 = Some out1 ->
  Fill BitPadding dst2 = Some out2 ->
  d1 ++ out1 = d2 ++ out2 ->
  d1 = d2 /\ length dst1 = length dst2.
Proof.
  intros H1 H2 E.
  destruct dst1 as [|b1 t1]; [discriminate|].
  destruct dst2 as [|b2 t2]; [discriminate|].
  simpl in H1, H2. injection H1 as <-. injection H2 as <-.
  rewrite !fill_repeat in E.
  apply (f_equal (@rev byte)) in E.
  rewrite !rev_app_distr in E. simpl in E.
  rewrite !repeat_rev_same, <- !app_assoc in E. simpl in E.
  apply zeros_marker_inj in E. destruct E as [Hlen Hrev].
  split.
  - rewrite <- (rev_involutive d1), <- (rev_involutive d2). now f_equal.
  - simpl. now f_equal.
Qed.

Lemma BitPadding_removable_witness :
  [x01; x80] = [x01; x80] /\
  length [x00; x00; x00] = length [x11; x22; x33].
Proof.
  exact (@BitPadding_removable [x01; x80] [x01; x80]
           [x00; x00; x00] [x11; x22; x33]
           [x80; x00; x00] [x80; x00; x00] eq_refl eq_refl eq_refl).
Defined.

(** A block padded by [PKCS7Padding] tells where its data ends as well: the
    last byte is the number of padding bytes. *)
Theorem PKCS7Padding_removable (d1 d2 dst1 dst2 out1 out2 : list byte) :
  dst1 <> [] -> dst2 <> [] ->
  Fill PKCS7Padding dst1 = Some out1 ->
  Fill PKCS7Padding dst2 = Some out2 ->
  d1 ++ out1 = d2 ++ out2 ->
  d1 = d2 /\ length dst1 = length dst2.
Proof.
  intros N1 N2 H1 H2 E. simpl in H1, H2.
  destruct (255 <? length dst1) eqn:L1; [discriminate|].
  destruct (255 <? length dst2) eqn:L2; [discriminate|].
  injection H1 as <-. injection H2 as <-. bool_hyps.
  rewrite !fill_repeat in E.
  assert (P1 : 0 < length dst1) by (destruct dst1; [congruence | simpl; lia]).
  assert (P2 : 0 < length dst2) by (destruct dst2; [congruence | simpl; lia]).
  assert (Hlast : forall d n, 0 < n ->
            last (d ++ repeat (byte_of_int n) n) x00 = byte_of_int n).
  { intros d n Hn. generalize (byte_of_int n). intros v.
    destruct n as [|n]; [lia|].
    cbn [repeat]. rewrite repeat_cons, app_assoc. apply last_last. }
  assert (Hn : length dst1 = length dst2).
  { pose proof (Hlast d1 _ P1) as A. pose proof (Hlast d2 _ P2) as B.
    rewrite E, B in A.
    apply (f_equal Byte.to_nat) in A.
    rewrite !byte_of_int_small in A by lia. now symmetry. }
  split; [|exact Hn].
  rewrite Hn in E. now apply app_inv_tail in E.
Qed.

Lemma PKCS7Padding_removable_witness :
  [x01; x03] = [x01; x03] /\
  length [x00; x00; x00] = length [x11; x22; x33].
Proof.
  refine (@PKCS7Padding_removable [x01; x03] [x01; x03]
            [x00; x00; x00] [x11; x22; x33]
            [x03; x03; x03] [x03; x03; x03] _ _ eq_refl eq_refl eq_refl);
    discriminate.
Defined.

(** [ZeroPadding] does not: data that ends with a zero byte and is padded
    with [n] bytes gives the bytes of the data without that zero, padded with
    [n + 1] bytes. *)
Theorem ZeroPadding_ambiguous (d dst out : list byte) :
  Fill ZeroPadding dst = Some out ->
  exists out', Fill ZeroPadding (x00 :: dst) = Some out' /\
               (d ++ [x00]) ++ out = d ++ out' /\ d ++ [x00] <> d.
Proof.
  intros Hf. simpl in Hf. injection Hf as <-.
  exists (x00 :: fill dst x00). split; [reflexivity|]. split.
  - now rewrite <- app_assoc.
  - intros E. apply (f_equal (@length byte)) in E.
    rewrite length_app in E. simpl in E. lia.
Qed.

Lemma ZeroPadding_ambiguous_witness :
  exists out', Fill ZeroPadding [x00; x11; x22] = Some out' /\
               ([x07] ++ [x00]) ++ [x00; x00] = [x07] ++ out' /\
               [x07] ++ [x00] <> [x07].
Proof.
  exact (@ZeroPadding_ambiguous [x07] [x11; x22] [x00; x00] eq_refl).
Defined.

(** ** reader.go: the stream through a reader *)

Lemma copy_over (dst src : list byte) :
  length src <= length dst ->
  fst (copy dst src) = src ++ skipn (length src) dst.
Proof.
  intros Hle. unfold copy. simpl.
  rewrite Nat.min_r by assumption. now rewrite firstn_all.
Qed.

Lemma copy_short (dst src : list byte) :
  length dst <= length src ->
  fst (copy dst src) = firstn (length dst) src.
Proof.
  intros Hle. unfold copy. simpl.
  rewrite Nat.min_l by assumption.
  now rewrite skipn_all, app_nil_r.
Qed.

Lemma firstn_app_l (n : nat) (a b : list byte) :
  n <= length a -> firstn n (a ++ b) = firstn n a.
Proof.
  intros Hle. rewrite firstn_app.
  replace (n - length a) with 0 by lia. simpl. apply app_nil_r.
Qed.

Lemma skipn_app_l (n : nat) (a b : list byte) :
  n <= length a -> skipn n (a ++ b) = skipn n a ++ b.
Proof.
  intros Hle. rewrite skipn_app.
  replace (n - length a) with 0 by lia. reflexivity.
Qed.

Lemma firstn_app_exact (a b : list byte) : firstn (length a) (a ++ b) = a.
Proof. rewrite firstn_app_l by lia. apply firstn_all. Qed.

Lemma skipn_app_exact (a b : list byte) : skipn (length a) (a ++ b) = b.
Proof. rewrite skipn_app_l by lia. now rewrite skipn_all. Qed.

Lemma skipn_app_len (n : nat) (a b : list byte) :
  length a = n -> skipn n (a ++ b) = b.
Proof. intros <-. apply skipn_app_exact. Qed.

Lemma firstn_app_len (n : nat) (a b : list byte) :
  length a = n -> firstn n (a ++ b) = a.
Proof. intros <-. apply firstn_app_exact. Qed.

Section ReaderStreamFacts.
Context {Src BM : Type} `{IoReader Src} `{BlockMode BM}.
Implicit Types (r : blockReader Src BM) (p done : list byte).

(** The small path: either the block is completed, transformed, and its
    first [len(p)] bytes go to the caller, or the bytes of the source join
    the buffer. *)
Lemma Read_small_content r done p count data err s1 :
  io_Read (src r) (blockSize r - length (buf r)) = (data, err, s1) ->
  length p < blockSize r ->
  let res := Read_small r done p count in
  (length (buf r ++ data) = blockSize r /\
   CryptBlocks (blockMode r) (buf r ++ data)
   = (buf (res_r res), blockMode (res_r res)) /\
   res_n res = count + length p /\
   res_p res = done ++ firstn (length p) (buf (res_r res)) /\
   crypted (res_r res) = blockSize r - length p) \/
  (length (buf r ++ data) <> blockSize r /\
   blockMode (res_r res) = blockMode r /\
   res_n res = count /\ res_p res = done ++ p /\
   buf (res_r res) = buf r ++ data /\
   crypted (res_r res) = crypted r).
Proof.
  intros Hio Hp. unfold Read_small. rewrite Hio. reader_simpl.
  destruct (length (buf r ++ data) =? blockSize r) eqn:Efull; bool_hyps.
  - left.
    destruct (CryptBlocks_answer (blockMode r) (buf r ++ data))
      as (out & m1 & Hc & Hout).
    rewrite Hc.
    assert (Hcopy : copy p out = (firstn (length p) out, length p)).
    { unfold copy. rewrite Nat.min_l by lia.
      now rewrite skipn_all, app_nil_r. }
    rewrite Hcopy.
    repeat break_if; reader_simpl; repeat split; trivial.
  - right. repeat break_if; reader_simpl; repeat split; trivial.
Qed.

(** The large path: the whole blocks among the bytes buffered and those the
    source gave are transformed at the front of [p]; what does not fill a
    block is kept. *)
Lemma Read_large_content r done p count data err s1 :
  io_Read (src r) (length p - length (buf r)) = (data, err, s1) ->
  length (buf r) < blockSize r -> blockSize r <= length p ->
  let res := Read_large r done p count in
  let all := buf r ++ data in
  let cr := length all - length all mod blockSize r in
  res_n res = count + cr /\
  crypted (res_r res) = crypted r /\
  buf (res_r res) = skipn cr all /\
  exists out,
    firstn (length done + cr) (res_p res) = done ++ out /\
    ((cr = 0 /\ out = [] /\ blockMode (res_r res) = blockMode r) \/
     (0 < cr /\
      CryptBlocks (blockMode r) (firstn cr all)
      = (out, blockMode (res_r res)))).
Proof.
  intros Hio Hb Hp res all cr.
  pose proof (io_Read_le (src r) (length p - length (buf r))) as Hdata.
  rewrite Hio in Hdata. simpl in Hdata.
  assert (Hall : length all = length (buf r) + length data)
    by (unfold all; apply length_app).
  assert (Hmod : length all mod blockSize r <= length all)
    by apply Nat.Div0.mod_le.
  assert (Hp1 : firstn (length (buf r)) p
                ++ fst (copy (skipn (length (buf r)) p) data)
                = firstn (length (buf r)) p ++ data
                  ++ skipn (length all) p).
  { rewrite copy_over by (rewrite length_skipn; lia).
    rewrite skipn_skipn. do 3 f_equal. lia. }
  subst res. unfold Read_large. rewrite Hio. reader_simpl.
  rewrite Hp1. rewrite <- Hall. fold cr.
  destruct (0 <? cr) eqn:Ecr; bool_hyps.
  - assert (Hp' : fst (copy (firstn (length (buf r)) p ++ data
                             ++ skipn (length all) p) (buf r))
                  = all ++ skipn (length all) p).
    { rewrite copy_over.
      - rewrite skipn_app_l by (rewrite length_firstn; lia).
        rewrite skipn_all2 by (rewrite length_firstn; lia).
        unfold all. now rewrite <- app_assoc.
      - rewrite !length_app, length_firstn, length_skipn. lia. }
    rewrite Hp'.
    assert (Hfirst : firstn cr (all ++ skipn (length all) p)
                     = firstn cr all)
      by (apply firstn_app_l; unfold cr; lia).
    rewrite Hfirst.
    destruct (CryptBlocks_answer (blockMode r) (firstn cr all))
      as (out & m1 & Hc & Hout).
    rewrite Hc. reader_simpl.
    assert (Hlen_out : length out = cr).
    { rewrite Hout, length_firstn. unfold cr. lia. }
    assert (Hp2 : fst (copy (all ++ skipn (length all) p) out)
                  = out ++ skipn cr all ++ skipn (length all) p).
    { rewrite copy_over by (rewrite length_app; lia).
      rewrite Hlen_out, skipn_app_l by (unfold cr; lia). reflexivity. }
    rewrite Hp2.
    split; [reflexivity|]. split; [reflexivity|]. split.
    + rewrite Nat.sub_0_r, Nat.sub_diag. simpl.
      replace (length all - length all mod blockSize r) with cr
        by reflexivity.
      rewrite <- Hlen_out at 1. rewrite skipn_app_exact.
      replace (length all mod blockSize r) with (length (skipn cr all))
        by (rewrite length_skipn; unfold cr; lia).
      apply firstn_app_exact.
    + exists out. split; [|right; split; [assumption | reflexivity]].
      rewrite firstn_app, firstn_all2 by lia.
      replace (length done + cr - length done) with (length out) by lia.
      now rewrite firstn_app_exact.
  - reader_simpl.
    assert (Hcr0 : cr = 0) by lia.
    assert (Hmod_eq : length all mod blockSize r = length all)
      by (unfold cr in Hcr0; lia).
    split; [lia|]. split; [reflexivity|]. split.
    + rewrite Hcr0. simpl. rewrite Hmod_eq, Hall.
      replace (length (buf r) + length data
               - (length (buf r) + length data - length (buf r)))
        with (length (buf r)) by lia.
      replace (length (buf r) + length data - length (buf r))
        with (length data) by lia.
      rewrite firstn_all.
      assert (Hpre : length (firstn (length (buf r)) p) = length (buf r))
        by (rewrite length_firstn; lia).
      rewrite (skipn_app_len _ _ Hpre), firstn_app_exact.
      reflexivity.
    + exists []. split; [|left; auto].
      rewrite Hcr0, Nat.add_0_r, app_nil_r. apply firstn_app_exact.
Qed.

Lemma pending_length r :
  reader_inv r -> length (pending r) = crypted r.
Proof.
  intros (_ & [[Hc _]|[Hc Hb]]); unfold pending.
  - now rewrite Hc.
  - destruct (0 <? crypted r) eqn:E; bool_hyps; [|lia].
    rewrite length_skipn. lia.
Qed.

(** [Read] first hands out what is pending.  Either that fills [p], or the
    call goes on, with what is left of [p], as on a reader that holds no
    transformed byte. *)
Lemma Read_cases r p :
  reader_inv r ->
  (length p < crypted r /\
   Read r p = mkRes (length p) None (firstn (length p) (pending r))
                (with_crypted r (crypted r - length p)) []) \/
  (exists r1,
     crypted r <= length p /\
     Read r p = Read_fresh r1 (pending r) (skipn (crypted r) p) (crypted r) /\
     crypted r1 = 0 /\ buf r1 = raw r /\ length (buf r1) < blockSize r1 /\
     src r1 = src r /\ blockMode r1 = blockMode r /\
     blockSize r1 = blockSize r /\ eof r1 = eof r).
Proof.
  intros Hinv. pose proof (pending_length Hinv) as Hpl.
  unfold Read, pending, raw in *.
  destruct (0 <? crypted r) eqn:Ec; bool_hyps.
  - assert (Hb : length (buf r) = blockSize r /\ crypted r <= blockSize r)
      by (destruct Hinv as (_ & [[? _]|[? ?]]); lia).
    set (pend := skipn (blockSize r - crypted r) (buf r)) in *.
    unfold copy. rewrite Hpl. reader_simpl.
    destruct (Nat.lt_ge_cases (length p) (crypted r)) as [Hlt|Hge].
    + left. split; [assumption|].
      rewrite Nat.min_l by lia.
      assert (E : (0 <? crypted r - length p) = true)
        by (apply Nat.ltb_lt; lia).
      rewrite E. now rewrite skipn_all, app_nil_r.
    + right. rewrite Nat.min_r by lia.
      assert (E : (0 <? crypted r - crypted r) = false)
        by (apply Nat.ltb_ge; lia).
      rewrite E.
      exists (with_buf (with_crypted r (crypted r - crypted r)) []).
      split; [assumption|]. split.
      * assert (Hf : firstn (crypted r) pend = pend)
          by (apply firstn_all2; lia).
        rewrite Hf, (skipn_app_len _ _ Hpl), (firstn_app_len _ _ Hpl).
        reflexivity.
      * reader_simpl. repeat split; trivial; lia.
  - right. exists r.
    assert (Hc : crypted r = 0) by lia.
    rewrite Hc. simpl.
    destruct Hinv as (_ & [[_ ?]|[? _]]); [|lia].
    repeat split; trivial; lia.
Qed.

Lemma idle_step r done p count (res : ReadResult Src BM) e :
  crypted r = 0 -> length done = count ->
  res = mkRes count e (done ++ p) r [] ->
  exists Y O,
    buf r ++ src_data r res = Y ++ raw (res_r res) /\
    length Y mod blockSize r = 0 /\
    done ++ O = received_bytes res ++ pending (res_r res) /\
    ((Y = [] /\ O = [] /\ blockMode (res_r res) = blockMode r) \/
     CryptBlocks (blockMode r) Y = (O, blockMode (res_r res))) /\
    blockSize (res_r res) = blockSize r.
Proof.
  intros Hc Hdone ->. exists [], [].
  unfold src_data, raw, pending, received_bytes. reader_simpl.
  rewrite Hc. cbn [Nat.ltb Nat.leb].
  rewrite <- Hdone, firstn_app_exact, !app_nil_r.
  repeat split; auto. apply Nat.Div0.mod_0_l.
Qed.

(** What a call does to the stream, from the point where it turns to the
    source: the bytes buffered and those the source gives are cut into whole
    blocks [Y], which are transformed into [O], and a rest, which is kept;
    the caller gets the front of [done ++ O] and the reader keeps the back. *)
Lemma Read_fresh_step r done p count :
  crypted r = 0 -> length (buf r) < blockSize r -> length done = count ->
  let res := Read_fresh r done p count in
  exists Y O,
    buf r ++ src_data r res = Y ++ raw (res_r res) /\
    length Y mod blockSize r = 0 /\
    done ++ O = received_bytes res ++ pending (res_r res) /\
    ((Y = [] /\ O = [] /\ blockMode (res_r res) = blockMode r) \/
     CryptBlocks (blockMode r) Y = (O, blockMode (res_r res))) /\
    blockSize (res_r res) = blockSize r.
Proof.
  intros Hc Hb <- res.
  subst res. unfold Read_fresh.
  destruct (eof r);
    [now apply idle_step with (p := p) (count := length done) (e := Some EOF)|].
  destruct (length p =? 0);
    [now apply idle_step with (p := p) (count := length done) (e := None)|].
  destruct (length p <? blockSize r) eqn:Esmall; bool_hyps.
  - (* the small path *)
    destruct (Read_small_trace_head r done p (length done)) as [tl Htr].
    destruct (io_Read (src r) (blockSize r - length (buf r)))
      as [[data err] s1] eqn:Hio.
    assert (Hdata : src_data r (Read_small r done p (length done)) = data).
    { unfold src_data. rewrite Htr, Hio. reflexivity. }
    rewrite Hdata.
    destruct (@Read_small_content r done p (length done) data err s1 Hio Esmall)
      as [(Hfull & Hcr & Hn & Hp & Hcrypted)
         |(Hfull & Hmode & Hn & Hp & Hbuf & Hcrypted)].
    + pose proof (CryptBlocks_length (blockMode r) (buf r ++ data)) as Hlen.
      rewrite Hcr in Hlen. simpl in Hlen.
      exists (buf r ++ data), (buf (res_r (Read_small r done p (length done)))).
      unfold raw, pending, received_bytes.
      rewrite Hcrypted, Hn, Hp.
      assert (E : (0 <? blockSize r - length p) = true)
        by (apply Nat.ltb_lt; lia).
      rewrite E.
      assert (Hbs : blockSize (res_r (Read_small r done p (length done)))
                    = blockSize r).
      { unfold Read_small. rewrite Hio.
        repeat break_if; reflexivity. }
      rewrite Hbs.
      split; [now rewrite app_nil_r|].
      split; [rewrite Hfull; apply Nat.Div0.mod_same|].
      split.
      * rewrite firstn_app.
        rewrite firstn_all2 by lia.
        replace (length done + length p - length done) with (length p)
          by lia.
        rewrite firstn_firstn, Nat.min_id.
        replace (blockSize r - (blockSize r - length p)) with (length p)
          by lia.
        now rewrite <- app_assoc, firstn_skipn.
      * split; [right; exact Hcr | reflexivity].
    + exists [], [].
      unfold raw, pending, received_bytes.
      rewrite Hcrypted, Hc, Hn, Hp, Hbuf, Hmode. cbn [Nat.ltb Nat.leb].
      assert (Hbs : blockSize (res_r (Read_small r done p (length done)))
                    = blockSize r).
      { unfold Read_small. rewrite Hio.
        repeat break_if; reflexivity. }
      rewrite Hbs, firstn_app_exact, !app_nil_r.
      repeat split; auto. apply Nat.Div0.mod_0_l.
  - (* the large path *)
    destruct (Read_large_trace_head r done p (length done)) as [tl Htr].
    destruct (io_Read (src r) (length p - length (buf r)))
      as [[data err] s1] eqn:Hio.
    assert (Hdata : src_data r (Read_large r done p (length done)) = data).
    { unfold src_data. rewrite Htr, Hio. reflexivity. }
    rewrite Hdata.
    destruct (@Read_large_content r done p (length done) data err s1
                Hio Hb Esmall)
      as (Hn & Hcrypted & Hbuf & out & Hp & Hout).
    set (all := buf r ++ data) in *.
    set (cr := length all - length all mod blockSize r) in *.
    assert (Hmod : length all mod blockSize r <= length all)
      by apply Nat.Div0.mod_le.
    exists (firstn cr all), out.
    unfold raw, pending, received_bytes.
    rewrite Hcrypted, Hc, Hn, Hbuf. cbn [Nat.ltb Nat.leb].
    assert (Hbs : blockSize (res_r (Read_large r done p (length done)))
                  = blockSize r).
    { unfold Read_large. rewrite Hio.
      repeat break_if; reflexivity. }
    rewrite Hbs, Hp, app_nil_r.
    split; [symmetry; apply firstn_skipn|].
    split.
    { rewrite length_firstn, Nat.min_l by (unfold cr; lia).
      unfold cr.
      rewrite (Nat.div_mod_eq (length all) (blockSize r)) at 1.
      rewrite Nat.add_sub, Nat.mul_comm. apply Nat.Div0.mod_mul. }
    split; [reflexivity|]. split; [|reflexivity].
    destruct Hout as [(Hz & -> & Hm)|(_ & Hcrypt)].
    + left. rewrite Hz. auto.
    + right. exact Hcrypt.
Qed.

(** The same for a whole call. *)
Lemma Read_step r p :
  reader_inv r ->
  let res := Read r p in
  exists Y O,
    raw r ++ src_data r res = Y ++ raw (res_r res) /\
    length Y mod blockSize r = 0 /\
    pending r ++ O = received_bytes res ++ pending (res_r res) /\
    ((Y = [] /\ O = [] /\ blockMode (res_r res) = blockMode r) \/
     CryptBlocks (blockMode r) Y = (O, blockMode (res_r res))) /\
    blockSize (res_r res) = blockSize r.
Proof.
  intros Hinv res. subst res.
  pose proof (pending_length Hinv) as Hpl.
  destruct (Read_cases p Hinv)
    as [(Hlt & ->)
       |(r1 & Hge & -> & Hc1 & Hb1 & Hlen1 & Hs1 & Hm1 & Hbs1 & He1)].
  - exists [], [].
    unfold src_data, raw, received_bytes. reader_simpl.
    assert (E1 : (0 <? crypted r) = true) by (apply Nat.ltb_lt; lia).
    assert (E2 : (0 <? crypted r - length p) = true)
      by (apply Nat.ltb_lt; lia).
    rewrite E1. unfold pending at 3. reader_simpl. rewrite E2.
    rewrite firstn_firstn, Nat.min_id, !app_nil_r.
    split; [reflexivity|]. split; [apply Nat.Div0.mod_0_l|].
    split; [|auto].
    unfold pending. rewrite E1.
    replace (blockSize r - (crypted r - length p))
      with (length p + (blockSize r - crypted r))
      by (destruct Hinv as (_ & [[? _]|[? _]]); lia).
    rewrite <- skipn_skipn. symmetry. apply firstn_skipn.
  - destruct (@Read_fresh_step r1 (pending r) (skipn (crypted r) p)
                (crypted r) Hc1 Hlen1 Hpl)
      as (Y & O & HY & Hal & HO & Hmode & Hbs).
    exists Y, O.
    assert (Hd : forall res, src_data r1 res = src_data r res)
      by (intros res; unfold src_data; now rewrite Hs1).
    rewrite Hd, Hb1, Hbs1, Hm1 in *.
    repeat split; assumption.
Qed.

(** The bytes a caller has received, with those that are pending, are the
    transform of the whole blocks among the bytes the source has given, in
    the order it gave them; the bytes after the last whole block are the raw
    bytes the reader holds. *)
Lemma Reads_stream_from r (ps : list (list byte)) (m0 : BM)
      (X T : list byte) :
  reader_inv r -> chains (blockSize r) ->
  length X mod blockSize r = 0 ->
  CryptBlocks m0 X = (T ++ pending r, blockMode r) ->
  exists X',
    X ++ raw r ++ consumed r ps = X' ++ raw (reader_after r ps) /\
    length X' mod blockSize r = 0 /\
    CryptBlocks m0 X'
    = (T ++ delivered (Reads r ps) ++ pending (reader_after r ps),
       blockMode (reader_after r ps)).
Proof.
  revert r X T. induction ps as [|p ps IH]; intros r X T Hinv Hch HX HT.
  - exists X. simpl. rewrite app_nil_r. unfold delivered. simpl. auto.
  - destruct (Read_step p Hinv) as (Y & O & HY & Hal & HO & Hmode & Hbs).
    pose proof (Read_preserves_inv p Hinv) as Hinv1.
    assert (HXY : length (X ++ Y) mod blockSize r = 0).
    { rewrite length_app, Nat.Div0.add_mod, HX, Hal. simpl.
      apply Nat.Div0.mod_0_l. }
    assert (HT1 : CryptBlocks m0 (X ++ Y)
                  = ((T ++ received_bytes (Read r p))
                     ++ pending (res_r (Read r p)),
                     blockMode (res_r (Read r p)))).
    { rewrite <- app_assoc, <- HO.
      destruct Hmode as [(-> & -> & ->)|HC].
      - now rewrite !app_nil_r.
      - destruct Hch as [_ Happ]. rewrite (Happ m0 X Y HX), HT. simpl.
        rewrite HC. simpl. now rewrite app_assoc. }
    rewrite <- Hbs in Hch, HXY.
    destruct (IH (res_r (Read r p)) (X ++ Y)
                 (T ++ received_bytes (Read r p)) Hinv1 Hch HXY HT1)
      as (X' & HX' & Hal' & HT').
    exists X'. cbn [consumed Reads reader_after fold_left].
    change (fold_left (fun r0 p0 => res_r (Read r0 p0)) ps
              (res_r (Read r p)))
      with (reader_after (res_r (Read r p)) ps).
    split; [|split].
    + rewrite <- HX'. rewrite <- !app_assoc. f_equal.
      rewrite !app_assoc. now rewrite HY.
    + now rewrite <- Hbs.
    + rewrite HT'. unfold delivered. cbn [map concat].
      unfold received_bytes. now rewrite <- !app_assoc.
Qed.

(** The stream through a reader.  From a new reader on a mode that works
    block after block, after any calls: the bytes the source has given are
    whole blocks followed by the raw bytes the reader holds; the bytes
    delivered to the caller, followed by the transformed bytes the reader
    still has to hand out, are the transform of those whole blocks by the
    mode the reader was made with, and the reader's mode is that mode after
    them.  No byte is lost, repeated, reordered or transformed twice. *)
Theorem Reads_stream (s : Src) (m : BM) (ps : list (list byte)) :
  0 < BlockSize m -> chains (BlockSize m) ->
  let r0 := NewBlockReader s m in
  exists X,
    consumed r0 ps = X ++ raw (reader_after r0 ps) /\
    length X mod BlockSize m = 0 /\
    CryptBlocks m X
    = (delivered (Reads r0 ps) ++ pending (reader_after r0 ps),
       blockMode (reader_after r0 ps)).
Proof.
  intros Hbs Hch r0.
  assert (Hinv : reader_inv r0)
    by (unfold reader_inv, r0, NewBlockReader; simpl; lia).
  destruct (@Reads_stream_from r0 ps m [] [] Hinv Hch
              (Nat.Div0.mod_0_l _)) as (X & HX & Hal & HT).
  { destruct Hch as [Hnil _]. now rewrite Hnil. }
  exists X. auto.
Qed.

Lemma Read_fresh_count r done p count :
  crypted r = 0 -> length (buf r) < blockSize r ->
  count <= res_n (Read_fresh r done p count) <= count + length p /\
  length (res_p (Read_fresh r done p count)) = length done + length p.
Proof.
  intros Hc Hb. unfold Read_fresh.
  destruct (eof r); [simpl; rewrite length_app; lia|].
  destruct (length p =? 0); [simpl; rewrite length_app; lia|].
  destruct (length p <? blockSize r) eqn:Esmall; bool_hyps.
  - destruct (io_Read (src r) (blockSize r - length (buf r)))
      as [[data err] s1] eqn:Hio.
    destruct (@Read_small_content r done p count data err s1 Hio Esmall)
      as [(Hfull & Hcr & -> & -> & _)|(_ & _ & -> & -> & _)].
    + pose proof (CryptBlocks_length (blockMode r) (buf r ++ data)) as Hl.
      rewrite Hcr in Hl. simpl in Hl.
      rewrite length_app, length_firstn. lia.
    + rewrite length_app. lia.
  - destruct (io_Read (src r) (length p - length (buf r)))
      as [[data err] s1] eqn:Hio.
    pose proof (io_Read_le (src r) (length p - length (buf r))) as Hdata.
    rewrite Hio in Hdata. simpl in Hdata.
    destruct (@Read_large_content r done p count data err s1 Hio Hb Esmall)
      as (-> & _).
    rewrite length_app.
    pose proof (Nat.Div0.mod_le (length (buf r) + length data)
                  (blockSize r)).
    split; [lia|].
    unfold Read_large. rewrite Hio. reader_simpl.
    assert (Hp1 : length (firstn (length (buf r)) p
                          ++ fst (copy (skipn (length (buf r)) p) data))
                  = length p).
    { rewrite length_app, length_firstn, copy_length, length_skipn. lia. }
    repeat break_if; reader_simpl;
      rewrite length_app, ?copy_length, Hp1; reflexivity.
Qed.

(** [Read] keeps the promise of [io.Reader] it relies on in its source:
    it returns at most [len(p)] bytes.  The caller's slice keeps its
    length. *)
Theorem Read_count_le r p :
  reader_inv r ->
  res_n (Read r p) <= length p /\
  length (res_p (Read r p)) = length p /\
  length (received_bytes (Read r p)) = res_n (Read r p).
Proof.
  intros Hinv. pose proof (pending_length Hinv) as Hpl.
  assert (Hmain : res_n (Read r p) <= length p /\
                  length (res_p (Read r p)) = length p).
  { destruct (Read_cases p Hinv)
      as [(Hlt & ->)
         |(r1 & Hge & -> & Hc1 & Hb1 & Hlen1 & _)].
    - simpl. rewrite length_firstn. lia.
    - destruct (@Read_fresh_count r1 (pending r) (skipn (crypted r) p)
                  (crypted r) Hc1 Hlen1) as [Hn Hp].
      rewrite length_skipn in *. lia. }
  destruct Hmain as [Hn Hp]. split; [exact Hn|]. split; [exact Hp|].
  unfold received_bytes. rewrite length_firstn. lia.
Qed.

(** What [Read] asks of its source: what completes the block, for a short
    destination; what fills the destination behind the buffered bytes, for
    a long one. *)
Lemma Read_fresh_request r done p count k :
  In (EvSrcRead k) (res_trace (Read_fresh r done p count)) ->
  eof r = false /\ 0 < length p /\
  ((length p < blockSize r /\ k = blockSize r - length (buf r)) \/
   (blockSize r <= length p /\ k = length p - length (buf r))).
Proof.
  unfold Read_fresh, Read_small, Read_large.
  repeat break_if; reader_simpl; simpl; intros Hin; bool_hyps;
    repeat (destruct Hin as [Hin|Hin]; try discriminate);
    try contradiction; injection Hin as <-;
    (split; [reflexivity|]); (split; [lia|]);
    first [left; split; [assumption | reflexivity]
          |right; split; [assumption | reflexivity]].
Qed.

Lemma le_round_up (bs n : nat) : 0 < bs -> n <= round_up bs n.
Proof.
  intros Hbs. unfold round_up.
  pose proof (Nat.div_mod_eq (n + bs - 1) bs) as E.
  pose proof (Nat.mod_upper_bound (n + bs - 1) bs ltac:(lia)) as Hlt.
  nia.
Qed.

Lemma round_up_block (bs n : nat) : 0 < bs -> 0 < n -> bs <= round_up bs n.
Proof.
  intros Hbs Hn. unfold round_up.
  assert (H1 : 1 <= (n + bs - 1) / bs)
    by (apply Nat.div_le_lower_bound; lia).
  nia.
Qed.

Lemma round_up_exact (bs n : nat) :
  0 < bs -> n mod bs = 0 -> round_up bs n = n.
Proof.
  intros Hbs Hmod. unfold round_up.
  apply Nat.Div0.div_exact in Hmod.
  assert (Hq : n / bs = (n + bs - 1) / bs).
  { apply (Nat.div_unique _ _ _ (bs - 1)); lia. }
  rewrite <- Hq. lia.
Qed.

Lemma Read_request_le r p k :
  reader_inv r ->
  In (EvSrcRead k) (res_trace (Read r p)) ->
  length (pending r) <= length p /\
  length (raw r) + k
  <= round_up (blockSize r) (length p - length (pending r)).
Proof.
  intros Hinv Hin.
  pose proof (pending_length Hinv) as Hpl.
  destruct (Read_cases p Hinv)
    as [(Hlt & E)
       |(r1 & Hge & E & Hc1 & Hb1 & Hlen1 & Hs1 & Hm1 & Hbs1 & He1)];
    rewrite E in Hin; [contradiction|].
  split; [lia|].
  rewrite Hpl, <- Hb1, <- Hbs1.
  assert (Hlp : length (skipn (crypted r) p) = length p - crypted r)
    by apply length_skipn.
  rewrite <- Hlp. clear E Hlp.
  generalize dependent (skipn (crypted r) p). intros q Hin.
  destruct (Read_fresh_request _ _ _ _ _ Hin)
    as (_ & Hq & [(Hs & ->)|(Hl & ->)]).
  - pose proof (@round_up_block (blockSize r1) (length q)). lia.
  - pose proof (@le_round_up (blockSize r1) (length q)). lia.
Qed.

(** The source is never consumed beyond the last block of which the caller
    asked a byte: the raw bytes the reader holds and the bytes it asks of
    its source are together no more than what the caller asks beyond the
    pending bytes, rounded up to whole blocks; no more than what the caller
    asks, when that is a whole number of blocks and nothing is pending. *)
Theorem Read_request_bound r p k :
  reader_inv r ->
  In (EvSrcRead k) (res_trace (Read r p)) ->
  length (raw r) + k
  <= round_up (blockSize r) (length p - length (pending r)) /\
  (pending r = [] -> length p mod blockSize r = 0 ->
   length (raw r) + k <= length p).
Proof.
  intros Hinv Hin.
  destruct (Read_request_le _ _ Hinv Hin) as [_ Hmain].
  split; [exact Hmain|]. intros Hpend Hmod.
  rewrite Hpend in Hmain. simpl in Hmain.
  rewrite Nat.sub_0_r, round_up_exact in Hmain; trivial.
  destruct Hinv as (_ & [[_ ?]|[? _]]); lia.
Qed.

Lemma firstn_add_split (a b : nat) (l : list byte) :
  firstn (a + b) l = firstn a l ++ firstn b (skipn a l).
Proof.
  rewrite firstn_skipn_comm.
  rewrite <- (firstn_skipn a (firstn (a + b) l)) at 1.
  f_equal. rewrite firstn_firstn. f_equal. lia.
Qed.

(** One call on a reader whose [eof] flag is set. *)
Lemma Read_eof_step r p :
  reader_inv r -> eof r = true ->
  let res := Read r p in
  res_trace res = [] /\ src (res_r res) = src r /\
  blockMode (res_r res) = blockMode r /\
  eof (res_r res) = true /\
  received_bytes res = firstn (length p) (pending r) /\
  pending (res_r res) = skipn (length p) (pending r) /\
  res_err res
  = (if length p <? length (pending r) then None else Some EOF).
Proof.
  intros Hinv He res. subst res.
  pose proof (pending_length Hinv) as Hpl.
  destruct (Read_cases p Hinv)
    as [(Hlt & ->)
       |(r1 & Hge & -> & Hc1 & Hb1 & Hlen1 & Hs1 & Hm1 & Hbs1 & He1)].
  - unfold received_bytes. reader_simpl.
    assert (E : (length p <? length (pending r)) = true)
      by (apply Nat.ltb_lt; lia).
    rewrite E, firstn_firstn, Nat.min_id.
    repeat split; trivial.
    unfold pending. reader_simpl.
    assert (E1 : (0 <? crypted r) = true) by (apply Nat.ltb_lt; lia).
    assert (E2 : (0 <? crypted r - length p) = true)
      by (apply Nat.ltb_lt; lia).
    rewrite E1, E2, skipn_skipn. f_equal.
    destruct Hinv as (_ & [[? _]|[? _]]); lia.
  - unfold Read_fresh. rewrite He1, He.
    unfold received_bytes. reader_simpl.
    assert (E : (length p <? length (pending r)) = false)
      by (apply Nat.ltb_ge; lia).
    rewrite E, (firstn_app_len _ _ Hpl).
    rewrite firstn_all2, skipn_all2 by lia.
    assert (Hp1 : pending r1 = [])
      by (unfold pending; now rewrite Hc1).
    repeat split; trivial. congruence.
Qed.

(** After the end of the stream has been flagged, the source is never read
    again and the mode never used again: whatever calls follow deliver the
    pending bytes, in order and as far as they are asked for, and nothing
    else; a call reports [io.EOF] when it leaves nothing pending, and [nil]
    otherwise. *)
Theorem Reads_after_eof r p (ps : list (list byte)) :
  reader_inv r -> eof r = true ->
  res_err (Read r p)
  = (if length p <? length (pending r) then None else Some EOF) /\
  Forall (fun res => res_trace res = []) (Reads r ps) /\
  src (reader_after r ps) = src r /\
  blockMode (reader_after r ps) = blockMode r /\
  delivered (Reads r ps)
  = firstn (list_sum (map (@length byte) ps)) (pending r).
Proof.
  intros Hinv He.
  split; [now apply Read_eof_step|]. clear p.
  revert r Hinv He. induction ps as [|p ps IH]; intros r Hinv He.
  - simpl. unfold delivered. simpl. auto.
  - destruct (Read_eof_step p Hinv He)
      as (Htr & Hs & Hm & He' & Hrecv & Hpend & _).
    destruct (IH _ (Read_preserves_inv p Hinv) He')
      as (Hall & Hs' & Hm' & Hd).
    cbn [Reads reader_after fold_left map list_sum].
    change (fold_left (fun r0 p0 => res_r (Read r0 p0)) ps
              (res_r (Read r p)))
      with (reader_after (res_r (Read r p)) ps).
    split; [now constructor|]. split; [congruence|].
    split; [congruence|].
    unfold delivered in *. cbn [map concat].
    fold (received_bytes (Read r p)).
    rewrite Hd, Hrecv, Hpend. symmetry. apply firstn_add_split.
Qed.

Lemma Read_fresh_quiet r done p count :
  crypted r = 0 -> length (buf r) < blockSize r ->
  let res := Read_fresh r done p count in
  res_n res = count -> res_err res = None ->
  length p = 0 \/
  exists k,
    res_trace res = [EvSrcRead k] /\
    snd (fst (io_Read (src r) k)) = None /\
    crypted (res_r res) = 0 /\
    buf (res_r res) = buf r ++ fst (fst (io_Read (src r) k)) /\
    length (buf (res_r res)) < blockSize r.
Proof.
  intros Hc Hb res. subst res. unfold Read_fresh.
  destruct (eof r); [discriminate|].
  destruct (length p =? 0) eqn:Ep0; bool_hyps; [now left|].
  right.
  destruct (length p <? blockSize r) eqn:Esmall; bool_hyps.
  - exists (blockSize r - length (buf r)).
    pose proof (io_Read_le (src r) (blockSize r - length (buf r))) as Hd.
    revert H1 H2. unfold Read_small.
    destruct (io_Read (src r) (blockSize r - length (buf r)))
      as [[data err] s1]. simpl in Hd. reader_simpl.
    destruct (length (buf r ++ data) =? blockSize r) eqn:Efull; bool_hyps.
    + destruct (CryptBlocks_answer (blockMode r) (buf r ++ data))
        as (out & m1 & -> & Hout).
      unfold copy. rewrite Nat.min_l by lia.
      repeat break_if; reader_simpl; intros; lia.
    + reader_simpl. rewrite Hc, Nat.ltb_irrefl.
      rewrite length_app in Efull.
      destruct err as [e|]; [|cbn [is_EOF fst snd]; reader_simpl;
        intros; repeat split; trivial; rewrite length_app; lia].
      cbn [is_EOF]. destruct (error_eqb e EOF) eqn:Ee;
        repeat break_if; reader_simpl; intros _ Habs; discriminate Habs.
  - exists (length p - length (buf r)).
    pose proof (io_Read_le (src r) (length p - length (buf r))) as Hd.
    destruct (io_Read (src r) (length p - length (buf r)))
      as [[data err] s1] eqn:Hio. simpl in Hd.
    destruct (@Read_large_content r done p count data err s1 Hio Hb Esmall)
      as (Hn & Hcr & Hbuf & _).
    revert H1 H2. intros Hn0 Herr. rewrite Hn in Hn0.
    assert (Hz : length (buf r ++ data)
                 - length (buf r ++ data) mod blockSize r = 0) by lia.
    rewrite Hz in Hbuf. simpl in Hbuf.
    pose proof (Nat.mod_upper_bound (length (buf r ++ data)) (blockSize r)
                  ltac:(lia)) as Hmod.
    cbn [fst snd]. rewrite Hcr, Hbuf.
    revert Herr. unfold Read_large. rewrite Hio. reader_simpl.
    rewrite <- length_app.
    assert (Ez : (0 <? length (buf r ++ data)
                       - length (buf r ++ data) mod blockSize r) = false)
      by (apply Nat.ltb_ge; lia).
    rewrite Ez. reader_simpl.
    destruct err as [e|]; [|intros; repeat split; trivial; lia].
    cbn [is_EOF]. destruct (error_eqb e EOF); cbn [andb];
      repeat break_if; reader_simpl; intros Habs; discriminate Habs.
Qed.

(** [Read] returns no byte and no error in two cases only: the destination
    is empty; or it asked its source once, the source reported no error and
    gave too little to complete a block, and what it gave is buffered. *)
Theorem Read_no_progress r p :
  reader_inv r ->
  res_n (Read r p) = 0 -> res_err (Read r p) = None ->
  length p = 0 \/
  exists k,
    res_trace (Read r p) = [EvSrcRead k] /\
    snd (fst (io_Read (src r) k)) = None /\
    crypted (res_r (Read r p)) = 0 /\
    buf (res_r (Read r p)) = raw r ++ fst (fst (io_Read (src r) k)) /\
    length (buf (res_r (Read r p))) < blockSize r.
Proof.
  intros Hinv. pose proof (pending_length Hinv) as Hpl.
  destruct (Read_cases p Hinv)
    as [(Hlt & ->)
       |(r1 & Hge & -> & Hc1 & Hb1 & Hlen1 & Hs1 & Hm1 & Hbs1 & He1)].
  - simpl. intros Hn _. now left.
  - intros Hn Herr.
    destruct (@Read_fresh_count r1 (pending r) (skipn (crypted r) p)
                (crypted r) Hc1 Hlen1) as [Hcount _].
    assert (Hc : crypted r = 0) by lia.
    rewrite Hc in *. simpl in *.
    destruct (@Read_fresh_quiet r1 (pending r) p 0 Hc1 Hlen1 Hn Herr)
      as [Hz|(k & Htr & Hnone & Hcr & Hbuf & Hlt)]; [now left|].
    right. exists k. rewrite Hs1, Hb1, Hbs1 in *. auto.
Qed.

(** An error of the source other than [io.EOF] is returned unchanged by the
    call in which it occurs, whatever the path, and the bytes that came with
    it are not lost: joined to the raw bytes the reader held, their whole
    blocks [Y] are transformed by the reader's mode into [O], which this
    call delivers behind the pending bytes, as far as the destination
    reaches, and leaves pending beyond; the bytes after the last whole block
    are buffered.  The reader stays within its invariant, with its source
    where that call left it. *)
Theorem Read_source_error r p k tl data e s' :
  reader_inv r ->
  res_trace (Read r p) = EvSrcRead k :: tl ->
  io_Read (src r) k = (data, Some e, s') -> e <> EOF ->
  res_err (Read r p) = Some e /\
  src (res_r (Read r p)) = s' /\
  reader_inv (res_r (Read r p)) /\
  exists Y O,
    raw r ++ data = Y ++ raw (res_r (Read r p)) /\
    length Y mod blockSize r = 0 /\
    pending r ++ O
    = received_bytes (Read r p) ++ pending (res_r (Read r p)) /\
    ((Y = [] /\ O = [] /\ blockMode (res_r (Read r p)) = blockMode r) \/
     CryptBlocks (blockMode r) Y = (O, blockMode (res_r (Read r p)))).
Proof.
  intros Hinv Htr Hio Hne.
  split; [now apply Read_error_verbatim with k tl data s'|].
  split.
  { pose proof (Read_moved r p) as Hm. rewrite Htr in Hm.
    destruct tl as [|[k'|n] [|e' tl']]; simpl in Hm; try contradiction.
    - destruct Hm as [-> _]. now rewrite Hio.
    - destruct Hm as [-> _]. now rewrite Hio. }
  split; [now apply Read_preserves_inv|].
  destruct (Read_step p Hinv) as (Y & O & HY & Hal & HO & Hmode & _).
  exists Y, O. split; [|now repeat split].
  rewrite <- HY. unfold src_data. now rewrite Htr, Hio.
Qed.

(** *** How far the source is consumed *)

Lemma round_up_mono (bs n n' : nat) :
  n <= n' -> round_up bs n <= round_up bs n'.
Proof.
  intros Hle. unfold round_up.
  apply Nat.mul_le_mono_r, Nat.Div0.div_le_mono. lia.
Qed.

Lemma round_up_add (bs a n : nat) :
  0 < bs -> a mod bs = 0 -> round_up bs (a + n) = a + round_up bs n.
Proof.
  intros Hbs Ha. unfold round_up.
  apply Nat.Div0.div_exact in Ha.
  replace (a + n + bs - 1) with (a / bs * bs + (n + bs - 1)) by lia.
  rewrite Nat.div_add_l by lia. lia.
Qed.

Lemma Read_n_le r p :
  reader_inv r -> length (received_bytes (Read r p)) <= length p.
Proof.
  intros Hinv. pose proof (pending_length Hinv) as Hpl.
  unfold received_bytes. rewrite length_firstn.
  destruct (Read_cases p Hinv)
    as [(Hlt & ->)
       |(r1 & Hge & -> & Hc1 & Hb1 & Hlen1 & _)].
  - simpl. rewrite length_firstn. lia.
  - destruct (@Read_fresh_count r1 (pending r) (skipn (crypted r) p)
                (crypted r) Hc1 Hlen1) as [Hn Hp].
    rewrite length_skipn in *. lia.
Qed.

(** One call, in numbers: [y] bytes, whole blocks, go from the raw side to
    the transformed side. *)
Lemma Read_step_lengths r p :
  reader_inv r ->
  let res := Read r p in
  exists y,
    y mod blockSize r = 0 /\
    length (raw r) + length (src_data r res)
    = y + length (raw (res_r res)) /\
    length (pending r) + y
    = length (received_bytes res) + length (pending (res_r res)) /\
    length (received_bytes res) <= length p /\
    (src_data r res = [] \/
     (length (pending r) <= length p /\
      length (raw r) + length (src_data r res)
      <= round_up (blockSize r) (length p - length (pending r)))) /\
    blockSize (res_r res) = blockSize r.
Proof.
  intros Hinv res.
  destruct (Read_step p Hinv) as (Y & O & HY & Hal & HO & Hmode & Hbs).
  fold res in HY, HO, Hmode, Hbs.
  exists (length Y). split; [exact Hal|].
  apply (f_equal (@length byte)) in HY, HO.
  rewrite !length_app in HY, HO.
  assert (HOY : length O = length Y).
  { destruct Hmode as [(-> & -> & _)|Hc]; [reflexivity|].
    pose proof (CryptBlocks_length (blockMode r) Y) as Hl.
    now rewrite Hc in Hl. }
  split; [exact HY|]. split; [lia|].
  split; [now apply Read_n_le|]. split; [|exact Hbs].
  unfold src_data. fold res.
  destruct (res_trace res) as [|[k|n] tl] eqn:Htr; auto.
  right.
  assert (Hin : In (EvSrcRead k) (res_trace (Read r p)))
    by (fold res; rewrite Htr; now left).
  destruct (Read_request_le _ _ Hinv Hin) as [Hp Hk].
  pose proof (io_Read_le (src r) k). lia.
Qed.

Lemma Reads_lengths_from r (ps : list (list byte)) (d q : nat) :
  reader_inv r -> 0 < blockSize r ->
  (d + length (pending r)) mod blockSize r = 0 ->
  d <= q ->
  d + length (pending r) + length (raw r) <= round_up (blockSize r) q ->
  let r' := reader_after r ps in
  let n := length (delivered (Reads r ps)) in
  let t := list_sum (map (@length byte) ps) in
  d + length (pending r) + length (raw r) + length (consumed r ps)
  = d + n + length (pending r') + length (raw r') /\
  (d + n + length (pending r')) mod blockSize r = 0 /\
  d + n <= q + t /\
  d + n + length (pending r') + length (raw r')
  <= round_up (blockSize r) (q + t).
Proof.
  revert r d q. induction ps as [|p ps IH]; intros r d q Hinv Hbs Hw Hd Hc.
  - cbn. rewrite !Nat.add_0_r. auto.
  - destruct (Read_step_lengths p Hinv)
      as (y & Hy & Hraw & Hpend & Hn & Hdata & Hbs1).
    pose proof (Read_preserves_inv p Hinv) as Hinv1.
    set (res := Read r p) in *.
    assert (Hw1 : (d + length (received_bytes res)
                   + length (pending (res_r res))) mod blockSize r = 0).
    { replace (d + length (received_bytes res)
               + length (pending (res_r res)))
        with (d + length (pending r) + y) by lia.
      rewrite Nat.Div0.add_mod, Hw, Hy. simpl. apply Nat.Div0.mod_0_l. }
    assert (Hc1 : d + length (received_bytes res)
                  + length (pending (res_r res))
                  + length (raw (res_r res))
                  <= round_up (blockSize r) (q + length p)).
    { destruct Hdata as [E|[Hp Hk]].
      - rewrite E in Hraw. simpl in Hraw.
        pose proof (@round_up_mono (blockSize r) q (q + length p)). lia.
      - pose proof (@round_up_add (blockSize r) (d + length (pending r))
                      (length p - length (pending r)) Hbs Hw) as Hadd.
        pose proof (@round_up_mono (blockSize r)
                      (d + length (pending r)
                       + (length p - length (pending r)))
                      (q + length p)).
        lia. }
    rewrite <- Hbs1 in Hw1, Hc1.
    assert (Hbs' : 0 < blockSize (res_r res)) by lia.
    assert (Hd1 : d + length (received_bytes res) <= q + length p) by lia.
    destruct (IH (res_r res) (d + length (received_bytes res))
                (q + length p) Hinv1 Hbs' Hw1 Hd1 Hc1)
      as (E1 & E2 & E3 & E4).
    rewrite Hbs1 in E2, E4.
    cbn [consumed Reads reader_after fold_left map list_sum].
    fold res. fold (reader_after (res_r res) ps).
    unfold delivered. cbn [map concat]. fold (delivered (Reads (res_r res) ps)).
    fold (received_bytes res). rewrite !length_app.
    change (list_sum (length p :: map (@length byte) ps))
      with (length p + list_sum (map (@length byte) ps)).
    rewrite Nat.add_assoc.
    repeat split; try lia.
    + replace (d + (length (received_bytes res)
                    + length (delivered (Reads (res_r res) ps)))
               + length (pending (reader_after (res_r res) ps)))
        with (d + length (received_bytes res)
              + length (delivered (Reads (res_r res) ps))
              + length (pending (reader_after (res_r res) ps))) by lia.
      exact E2.
    + rewrite <- !Nat.add_assoc in *. exact E4.
Qed.

(** The wrapped reader is never consumed beyond the last requested block,
    over any calls on a new reader: the bytes taken from the source are the
    bytes delivered, the transformed bytes pending and the raw bytes held;
    they are no more than the bytes asked for, rounded up to whole blocks.
    So a caller that asked for whole blocks in all and got them has left the
    source at that block boundary, and the reader holds nothing. *)
Theorem Reads_block_boundary (s : Src) (m : BM) (ps : list (list byte)) :
  0 < BlockSize m ->
  let r0 := NewBlockReader s m in
  let r' := reader_after r0 ps in
  let t := list_sum (map (@length byte) ps) in
  length (consumed r0 ps)
  = length (delivered (Reads r0 ps)) + length (pending r')
    + length (raw r') /\
  length (consumed r0 ps) <= round_up (BlockSize m) t /\
  (t mod BlockSize m = 0 -> length (delivered (Reads r0 ps)) = t ->
   length (consumed r0 ps) = t /\ raw r' = [] /\ pending r' = []).
Proof.
  intros Hbs r0 r' t.
  assert (Hinv : reader_inv r0)
    by (unfold reader_inv, r0, NewBlockReader; simpl; lia).
  assert (Hru : 0 + length (pending r0) + length (raw r0)
                <= round_up (blockSize r0) 0) by (cbn; lia).
  destruct (@Reads_lengths_from r0 ps 0 0 Hinv Hbs
              (Nat.Div0.mod_0_l _) (Nat.le_refl 0) Hru)
    as (E1 & _ & _ & E4).
  fold r' in E1, E4. cbn [blockSize r0 NewBlockReader] in E4.
  change (length (pending r0)) with 0 in E1.
  change (length (raw r0)) with 0 in E1.
  cbn [Nat.add] in E1, E4. fold t in E4.
  split; [exact E1|]. split; [lia|].
  intros Hmod Hall.
  rewrite round_up_exact in E4 by assumption.
  assert (Hp : length (pending r') = 0) by lia.
  assert (Hr : length (raw r') = 0) by lia.
  apply length_zero_iff_nil in Hp, Hr. repeat split; trivial.
  rewrite E1, Hp, Hr. simpl. lia.
Qed.

(** *** What [io.EOF] means *)

Lemma is_EOF_false (err : option error) :
  is_EOF err = false -> err <> Some EOF.
Proof. intros E ->. discriminate E. Qed.

Lemma Read_fresh_eof_done r done p count :
  crypted r = 0 -> length (buf r) < blockSize r -> eof_inv r ->
  let res := Read_fresh r done p count in
  eof_inv (res_r res) /\
  (res_err res = Some EOF -> crypted (res_r res) = 0 /\ buf (res_r res) = []).
Proof.
  intros Hc Hb Hei res. subst res. unfold Read_fresh, eof_inv.
  destruct (eof r) eqn:He.
  { reader_simpl. split; [intros _ _; now apply Hei|].
    intros _. split; [exact Hc|now apply Hei]. }
  destruct (length p =? 0) eqn:Ep0; bool_hyps.
  { reader_simpl. split; [congruence|discriminate]. }
  destruct (length p <? blockSize r) eqn:Esmall; bool_hyps.
  - unfold Read_small.
    destruct (io_Read (src r) (blockSize r - length (buf r)))
      as [[data err] s1]. reader_simpl.
    destruct (length (buf r ++ data) =? blockSize r) eqn:Efull; bool_hyps.
    + destruct (CryptBlocks_answer (blockMode r) (buf r ++ data))
        as (out & m1 & -> & Hout).
      unfold copy. rewrite Nat.min_l by lia. reader_simpl.
      assert (Epos : (0 <? blockSize r - length p) = true)
        by (apply Nat.ltb_lt; lia).
      rewrite Epos.
      destruct (is_EOF err) eqn:Ee; reader_simpl.
      * split; [intros _ Habs; lia|discriminate].
      * apply is_EOF_false in Ee.
        split; [congruence|]. intros Habs. contradiction.
    + reader_simpl. rewrite Hc, Nat.ltb_irrefl.
      destruct (is_EOF err) eqn:Ee.
      * destruct (0 <? length (buf r ++ data)) eqn:El; bool_hyps;
          reader_simpl; (split; [congruence|]).
        -- discriminate.
        -- intros _. split; [exact Hc|].
           apply length_zero_iff_nil. lia.
      * apply is_EOF_false in Ee. reader_simpl.
        split; [congruence|]. intros Habs. contradiction.
  - destruct (io_Read (src r) (length p - length (buf r)))
      as [[data err] s1] eqn:Hio.
    destruct (@Read_large_content r done p count data err s1 Hio Hb Esmall)
      as (_ & Hcr & Hbuf & _).
    rewrite Hcr, Hbuf.
    assert (Heof : eof (res_r (Read_large r done p count)) = false).
    { unfold Read_large. rewrite Hio. reader_simpl.
      repeat break_if; reader_simpl; exact He. }
    split; [congruence|]. intros Herr. split; [exact Hc|].
    revert Herr. unfold Read_large. rewrite Hio. reader_simpl.
    rewrite <- length_app.
    assert (Hbs : 0 < blockSize r) by lia.
    pose proof (Nat.mod_upper_bound (length (buf r ++ data)) (blockSize r)
                  ltac:(lia)) as Hmod.
    pose proof (Nat.Div0.mod_le (length (buf r ++ data)) (blockSize r))
      as Hle.
    destruct (is_EOF err) eqn:Ee; cbn [andb].
    + destruct (0 <? length (buf r ++ data) mod blockSize r) eqn:Eb;
        bool_hyps.
      * repeat break_if; reader_simpl; discriminate.
      * intros _. apply length_zero_iff_nil.
        rewrite length_skipn. lia.
    + apply is_EOF_false in Ee.
      repeat break_if; reader_simpl; intros Habs; contradiction.
Qed.

Lemma Read_eof_done r p :
  reader_inv r -> eof_inv r ->
  eof_inv (res_r (Read r p)) /\
  (res_err (Read r p) = Some EOF ->
   pending (res_r (Read r p)) = [] /\ raw (res_r (Read r p)) = []).
Proof.
  intros Hinv Hei.
  destruct (Read_cases p Hinv)
    as [(Hlt & ->)
       |(r1 & Hge & -> & Hc1 & Hb1 & Hlen1 & Hs1 & Hm1 & Hbs1 & He1)].
  - reader_simpl. split; [|discriminate].
    unfold eof_inv. reader_simpl. intros _ Habs. lia.
  - assert (Hei1 : eof_inv r1).
    { unfold eof_inv. rewrite He1, Hb1. intros He _.
      unfold raw. destruct (0 <? crypted r) eqn:Ec; bool_hyps;
        [reflexivity|]. apply Hei; [exact He|lia]. }
    destruct (@Read_fresh_eof_done r1 (pending r) (skipn (crypted r) p)
                (crypted r) Hc1 Hlen1 Hei1) as [Hi Hdone].
    split; [exact Hi|]. intros Herr.
    destruct (Hdone Herr) as [Hc Hb].
    set (r' := res_r _) in *.
    unfold pending, raw. now rewrite Hc, Hb.
Qed.

Lemma reader_after_eof_inv r (ps : list (list byte)) :
  reader_inv r -> eof_inv r ->
  reader_inv (reader_after r ps) /\ eof_inv (reader_after r ps).
Proof.
  revert r. induction ps as [|p ps IH]; intros r Hinv Hei; [now split|].
  apply IH; [now apply Read_preserves_inv|now apply Read_eof_done].
Qed.

(** [io.EOF] means that the stream is complete.  When a call on a reader
    that was made by [NewBlockReader] reports [io.EOF], the reader holds
    nothing, raw or transformed; over a mode that works block after block,
    the bytes delivered up to and in that call are the transform of all the
    bytes the source has given. *)
Theorem Read_EOF_complete (s : Src) (m : BM) (ps : list (list byte)) p :
  0 < BlockSize m -> chains (BlockSize m) ->
  let r0 := NewBlockReader s m in
  let r := reader_after r0 ps in
  let res := Read r p in
  res_err res = Some EOF ->
  pending (res_r res) = [] /\ raw (res_r res) = [] /\
  CryptBlocks m (consumed r0 ps ++ src_data r res)
  = (delivered (Reads r0 ps) ++ received_bytes res, blockMode (res_r res)).
Proof.
  intros Hbs Hch r0 r res Herr.
  assert (Hinv0 : reader_inv r0)
    by (unfold reader_inv, r0, NewBlockReader; simpl; lia).
  assert (Hei0 : eof_inv r0) by (intros He; discriminate He).
  destruct (reader_after_eof_inv ps Hinv0 Hei0) as [Hinv Hei].
  fold r in Hinv, Hei.
  destruct (Read_eof_done p Hinv Hei) as [_ Hdone].
  destruct (Hdone Herr) as [Hp Hr]. fold res in Hp, Hr.
  split; [exact Hp|]. split; [exact Hr|].
  destruct (@Reads_stream_from r0 ps m [] [] Hinv0 Hch
              (Nat.Div0.mod_0_l _)) as (X & HX & Hal & HT).
  { destruct Hch as [Hnil _]. now rewrite Hnil. }
  fold r in HX, HT. cbn [app] in HX, HT.
  change (raw r0) with (@nil byte) in HX. cbn [app] in HX.
  change (blockSize r0) with (BlockSize m) in Hal.
  destruct (Read_step p Hinv) as (Y & O & HY & HalY & HO & Hmode & Hbs1).
  fold res in HY, HO, Hmode. rewrite Hr, app_nil_r in HY.
  rewrite Hp, app_nil_r in HO.
  rewrite HX, <- app_assoc, HY.
  destruct Hch as [Hnil Happ]. rewrite (Happ m X Y Hal), HT. cbn [fst snd].
  destruct Hmode as [(-> & -> & Hm)|Hc].
  - rewrite Hnil. cbn [fst snd].
    rewrite Hm, <- HO, <- app_assoc. reflexivity.
  - rewrite Hc. cbn [fst snd]. rewrite <- app_assoc, HO. reflexivity.
Qed.

End ReaderStreamFacts.

(** The chained mode of the tests works block after block. *)
Lemma chain_bytes_app (last : byte) (a b : list byte) :
  chain_bytes last (a ++ b)
  = (fst (chain_bytes last a)
     ++ fst (chain_bytes (snd (chain_bytes last a)) b),
     snd (chain_bytes (snd (chain_bytes last a)) b)).
Proof.
  revert last. induction a as [|x a IH]; intros last; simpl.
  - now destruct (chain_bytes last b).
  - rewrite IH.
    destruct (chain_bytes _ a) as [oa la]. simpl.
    now destruct (chain_bytes la b).
Qed.

Lemma Chained_chains (bs : nat) : chains (BM := Chained) bs.
Proof.
  split.
  - intros [size last]. reflexivity.
  - intros [size last] a b _. simpl. rewrite chain_bytes_app.
    destruct (chain_bytes last a) as [oa la]. simpl.
    now destruct (chain_bytes la b).
Qed.

(** *** On the scripts of the reader test *)

Lemma Reads_stream_witness :
  exists X,
    consumed (NewBlockReader
                [(bytes_from 0 5, None); (bytes_from 5 5, None);
                 (bytes_from 10 6, None); (bytes_from 16 24, None)] cbc16)
             [repeat x00 3; repeat x00 3; repeat x00 3; repeat x00 5;
              repeat x00 8; repeat x00 24]
    = X ++ raw (reader_after
                  (NewBlockReader
                     [(bytes_from 0 5, None); (bytes_from 5 5, None);
                      (bytes_from 10 6, None); (bytes_from 16 24, None)]
                     cbc16)
                  [repeat x00 3; repeat x00 3; repeat x00 3; repeat x00 5;
                   repeat x00 8; repeat x00 24]) /\
    length X mod 16 = 0 /\
    CryptBlocks cbc16 X
    = (delivered
         (Reads (NewBlockReader
                   [(bytes_from 0 5, None); (bytes_from 5 5, None);
                    (bytes_from 10 6, None); (bytes_from 16 24, None)]
                   cbc16)
                [repeat x00 3; repeat x00 3; repeat x00 3; repeat x00 5;
                 repeat x00 8; repeat x00 24])
       ++ pending
            (reader_after
               (NewBlockReader
                  [(bytes_from 0 5, None); (bytes_from 5 5, None);
                   (bytes_from 10 6, None); (bytes_from 16 24, None)]
                  cbc16)
               [repeat x00 3; repeat x00 3; repeat x00 3; repeat x00 5;
                repeat x00 8; repeat x00 24]),
       blockMode
         (reader_after
            (NewBlockReader
               [(bytes_from 0 5, None); (bytes_from 5 5, None);
                (bytes_from 10 6, None); (bytes_from 16 24, None)] cbc16)
            [repeat x00 3; repeat x00 3; repeat x00 3; repeat x00 5;
             repeat x00 8; repeat x00 24])).
Proof.
  assert (Hbs : 0 < BlockSize cbc16) by (simpl; lia).
  exact (@Reads_stream _ _ _ _
           [(bytes_from 0 5, None); (bytes_from 5 5, None);
            (bytes_from 10 6, None); (bytes_from 16 24, None)] cbc16
           [repeat x00 3; repeat x00 3; repeat x00 3; repeat x00 5;
            repeat x00 8; repeat x00 24]
           Hbs (Chained_chains (BlockSize cbc16))).
Defined.

Lemma Read_count_le_witness :
  res_n (Read (NewBlockReader [(bytes_from 0 24, None)] cbc16)
              (repeat x00 24)) <= 24.
Proof.
  refine (proj1 (@Read_count_le _ _ _ _
            (NewBlockReader [(bytes_from 0 24, None)] cbc16)
            (repeat x00 24) _)).
  unfold reader_inv. simpl. lia.
Defined.

(** A new reader asked for 3 bytes asks its source for one block. *)
Lemma Read_request_bound_witness :
  0 + 16 <= round_up 16 (3 - 0).
Proof.
  refine (proj1 (@Read_request_bound _ _ _ _
            (NewBlockReader [(bytes_from 0 5, None)] cbc16)
            (repeat x00 3) 16 _ _)).
  - unfold reader_inv. simpl. lia.
  - simpl. left. reflexivity.
Defined.

(** The test SmallBufEOFWithData after its first step: four bytes are
    pending and the end is flagged; three calls for 3, 0 and 12 bytes get
    these four bytes. *)
Lemma Reads_after_eof_witness :
  delivered
    (Reads (res_r (Read (NewBlockReader [(bytes_from 0 16, Some EOF)] cbc16)
                        (repeat x00 12)))
           [repeat x00 3; []; repeat x00 12])
  = firstn (3 + (0 + (12 + 0)))
      (pending (res_r (Read (NewBlockReader [(bytes_from 0 16, Some EOF)]
                               cbc16)
                            (repeat x00 12)))).
Proof.
  refine (proj2 (proj2 (proj2 (proj2 (@Reads_after_eof _ _ _ _
            (res_r (Read (NewBlockReader [(bytes_from 0 16, Some EOF)] cbc16)
                         (repeat x00 12)))
            [] [repeat x00 3; []; repeat x00 12] _ _))))).
  - unfold reader_inv. simpl. lia.
  - reflexivity.
Defined.

(** The first step of the test VariousReadPatterns: 3 bytes are asked for,
    the mock gives 5 of the 16 it is asked for, nothing is returned. *)
Lemma Read_no_progress_witness :
  length (repeat x00 3) = 0 \/
  exists k,
    res_trace
      (Read (NewBlockReader ([(bytes_from 0 5, None)] : Script) cbc16)
            (repeat x00 3))
    = [EvSrcRead k] /\
    snd (fst (io_Read
                (src (NewBlockReader ([(bytes_from 0 5, None)] : Script)
                                     cbc16)) k))
    = None /\
    crypted
      (res_r
         (Read (NewBlockReader ([(bytes_from 0 5, None)] : Script) cbc16)
               (repeat x00 3)))
    = 0 /\
    buf
      (res_r
         (Read (NewBlockReader ([(bytes_from 0 5, None)] : Script) cbc16)
               (repeat x00 3)))
    = raw (NewBlockReader ([(bytes_from 0 5, None)] : Script) cbc16)
      ++ fst (fst (io_Read
                     (src (NewBlockReader
                             ([(bytes_from 0 5, None)] : Script) cbc16))
                     k)) /\
    length
      (buf
         (res_r
            (Read (NewBlockReader ([(bytes_from 0 5, None)] : Script) cbc16)
                  (repeat x00 3))))
    < blockSize (NewBlockReader ([(bytes_from 0 5, None)] : Script) cbc16).
Proof.
  apply (@Read_no_progress _ _ _ _
           (NewBlockReader ([(bytes_from 0 5, None)] : Script) cbc16)
           (repeat x00 3)).
  - unfold reader_inv. simpl. lia.
  - reflexivity.
  - reflexivity.
Defined.

(** The test LargeBufErr: the mock gives 24 bytes and [testErr]; the call
    returns the error with the transformed first block, and the other 8
    bytes are buffered. *)
Lemma Read_source_error_witness :
  res_err (Read (NewBlockReader [(bytes_from 0 24, Some testErr)] cbc16)
                (repeat x00 32))
  = Some testErr /\
  exists Y O,
    [] ++ bytes_from 0 24 = Y ++ bytes_from 16 8 /\
    [] ++ O
    = received_bytes
        (Read (NewBlockReader [(bytes_from 0 24, Some testErr)] cbc16)
              (repeat x00 32)) ++ [] /\
    fst (CryptBlocks cbc16 Y) = O.
Proof.
  assert (Hinv : reader_inv
                   (NewBlockReader [(bytes_from 0 24, Some testErr)] cbc16))
    by (unfold reader_inv; simpl; lia).
  assert (Hne : testErr <> EOF) by discriminate.
  assert (Htr : res_trace
                  (Read (NewBlockReader [(bytes_from 0 24, Some testErr)]
                                        cbc16)
                        (repeat x00 32))
                = [EvSrcRead 32; EvCrypt 16]) by reflexivity.
  assert (Hio : io_Read
                  (src (NewBlockReader [(bytes_from 0 24, Some testErr)]
                                       cbc16)) 32
                = (bytes_from 0 24, Some testErr, [])) by reflexivity.
  destruct (Read_source_error _ Hinv Htr Hio Hne)
    as (Herr & _ & _ & Y & O & HY & _ & HO & Hmode).
  split; [exact Herr|].
  exists Y, O. split; [exact HY|]. split; [exact HO|].
  destruct Hmode as [(-> & -> & _)|Hc]; [reflexivity|].
  change (CryptBlocks cbc16 Y) with
    (CryptBlocks
       (blockMode (NewBlockReader [(bytes_from 0 24, Some testErr)] cbc16))
       Y).
  now rewrite Hc.
Defined.

(** Two blocks asked for and received: the source is left after them. *)
Lemma Reads_block_boundary_witness :
  length (consumed
            (NewBlockReader
               [(bytes_from 0 16, None); (bytes_from 16 16, None);
                (bytes_from 32 16, None)] cbc16)
            [repeat x00 16; repeat x00 16])
  <= round_up 16 32.
Proof.
  assert (Hbs : 0 < BlockSize cbc16) by (simpl; lia).
  exact (proj1 (proj2 (@Reads_block_boundary _ _ _ _
           [(bytes_from 0 16, None); (bytes_from 16 16, None);
            (bytes_from 32 16, None)] cbc16
           [repeat x00 16; repeat x00 16] Hbs))).
Defined.

(** One block, then the end of the stream. *)
Lemma Read_EOF_complete_witness :
  pending
    (res_r
       (Read (reader_after
                (NewBlockReader
                   [(bytes_from 0 16, None); ([], Some EOF)] cbc16)
                [repeat x00 16])
             (repeat x00 16)))
  = [].
Proof.
  assert (Hbs : 0 < BlockSize cbc16) by (simpl; lia).
  refine (proj1 (@Read_EOF_complete _ _ _ _
            [(bytes_from 0 16, None); ([], Some EOF)] cbc16
            [repeat x00 16] (repeat x00 16) Hbs
            (Chained_chains (BlockSize cbc16)) _)).
  reflexivity.
Defined.
